(** * bio-algs: the elitist generational loop with stagnation shocks

    Shallow embedding of [src/elitism.py] ([eaSimpleWithElitism]) and of
    [GASolver.ga_solve] from [src/ga_solver.py].

    Scope of the model.
    - An individual is its gene list together with its (possibly invalid)
      single-objective fitness; the fitness class is [FitnessMin], weights
      [(-1.0,)].
    - Python's in-place updates of [population], [halloffame] and the local
      variables of the loop become fields of an explicit [State]; an
      exception leaving the call becomes [Raised], carrying the caller-visible
      objects as they are at that moment.
    - The toolbox operators draw from Python's global random generator; they
      are functions threading an abstract generator state.
    - [stats] is the statistics object [ga_solve] always passes (fields
      [min] and [avg]); [status_callback] only prints text and is left out. *)

From Stdlib Require Import String ZArith QArith List Bool Lia PeanoNat.
From Stdlib Require Import Sorted.
Import ListNotations.
Local Open Scope Z_scope.

Set Implicit Arguments.

(* ------------------------------------------------------------------ *)
(** ** Exceptions and results *)

Inductive exn : Type :=
| ValueError        (* raise ValueError(...), np.min of an empty sequence *)
| IndexError        (* indexing an empty list *)
| UnboundLocalError (* reading the local [offspring] before assignment *).

Inductive result (A : Type) : Type :=
| Ok (a : A)
| Raise (e : exn).
Arguments Ok {A} a.
Arguments Raise {A} e.

Definition bind {A B} (r : result A) (k : A -> result B) : result B :=
  match r with
  | Ok a => k a
  | Raise e => Raise e
  end.

Notation "x <- r ;; k" := (bind r (fun x => k))
  (at level 61, r at next level, right associativity).

(* ------------------------------------------------------------------ *)
(** ** Individuals and fitness *)

Record Individual : Type := mkInd {
  genes : list Z;
  fitness : option Z   (* [None]: [ind.fitness.valid] is false *)
}.

Definition valid (i : Individual) : bool :=
  match fitness i with Some _ => true | None => false end.

(** [creator.create("FitnessMin", base.Fitness, weights=(-1.0,))]:
    comparisons go through the weighted values, tuples of length 0 or 1. *)
Definition wvalues (i : Individual) : option Z := option_map Z.opp (fitness i).

Definition tuple_le (a b : option Z) : bool :=
  match a, b with
  | None, _ => true
  | Some _, None => false
  | Some x, Some y => x <=? y
  end.

Definition tuple_lt (a b : option Z) : bool :=
  match a, b with
  | _, None => false
  | None, Some _ => true
  | Some x, Some y => x <? y
  end.

(** [Fitness.__gt__]: [not self.__le__(other)]; [Fitness.__lt__]. *)
Definition fitness_gt (a b : Individual) : bool :=
  negb (tuple_le (wvalues a) (wvalues b)).
Definition fitness_lt (a b : Individual) : bool :=
  tuple_lt (wvalues a) (wvalues b).

(** [GASolver.np_equal]: [np.all(a == b)] on two list-based individuals. *)
Definition np_equal (a b : Individual) : bool :=
  if list_eq_dec Z.eq_dec (genes a) (genes b) then true else false.

(* ------------------------------------------------------------------ *)
(** ** HallOfFame *)

(** Modelled from the spec: the archive class [tools.HallOfFame] of the DEAP
    library is not part of the sources; section 4.4 gives its contract
    (insert what beats the worst member or fits, best first, skip duplicates
    under the equality predicate, [clear] empties, fixed capacity).  The
    model follows DEAP's [update]/[insert]/[remove]/[clear]; the parallel
    list [keys] of fitnesses mirrors [items] and is not kept. *)
Record HallOfFame : Type := mkHof {
  maxsize : Z;
  items : list Individual
}.

Definition hof_len (h : HallOfFame) : Z := Z.of_nat (length (items h)).

(** [insert]: a copy of the item goes after the strictly better members
    ([bisect_right] on the ascending keys, mirrored). *)
Fixpoint insert_sorted (item : Individual) (l : list Individual) : list Individual :=
  match l with
  | [] => [item]
  | h :: t => if fitness_lt item h then h :: insert_sorted item t else item :: l
  end.

Definition hof_insert (h : HallOfFame) (item : Individual) : HallOfFame :=
  mkHof (maxsize h) (insert_sorted item (items h)).

(** [remove(-1)] *)
Definition hof_remove_last (h : HallOfFame) : HallOfFame :=
  mkHof (maxsize h) (removelast (items h)).

Definition hof_clear (h : HallOfFame) : HallOfFame := mkHof (maxsize h) [].

(** One iteration of the [for ind in population] loop of [update];
    [first] is [population[0]]. *)
Definition hof_update_one (first : Individual) (h : HallOfFame) (ind : Individual)
  : result HallOfFame :=
  if (hof_len h =? 0) && negb (maxsize h =? 0) then Ok (hof_insert h first)
  else
    match rev (items h) with
    | [] => Raise IndexError                       (* self[-1] *)
    | worst :: _ =>
        if fitness_gt ind worst || (hof_len h <? maxsize h) then
          if existsb (np_equal ind) (items h) then Ok h
          else if maxsize h <=? hof_len h
               then Ok (hof_insert (hof_remove_last h) ind)
               else Ok (hof_insert h ind)
        else Ok h
    end.

Fixpoint hof_update_from (first : Individual) (h : HallOfFame) (l : list Individual)
  : result HallOfFame :=
  match l with
  | [] => Ok h
  | ind :: t => h' <- hof_update_one first h ind ;; hof_update_from first h' t
  end.

Definition hof_update (h : HallOfFame) (population : list Individual)
  : result HallOfFame :=
  match population with
  | [] => Ok h
  | first :: _ => hof_update_from first h population
  end.

(* ------------------------------------------------------------------ *)
(** ** Statistics and logbook *)

(** [stats.compile(population)] with [min = np.min], [avg = np.mean] over
    [ind.fitness.values]. *)
Fixpoint fitness_values (l : list Individual) : option (list Z) :=
  match l with
  | [] => Some []
  | i :: t =>
      match fitness i, fitness_values t with
      | Some v, Some vs => Some (v :: vs)
      | _, _ => None
      end
  end.

Definition list_min (x : Z) (l : list Z) : Z := fold_left Z.min l x.

Definition np_min (l : list Z) : result Z :=
  match l with
  | [] => Raise ValueError
  | x :: t => Ok (list_min x t)
  end.

Definition np_mean (l : list Z) : Q :=
  Qred (inject_Z (fold_left Z.add l 0) / inject_Z (Z.of_nat (length l))).

Record LogRecord : Type := mkRec {
  rec_gen : Z;
  rec_nevals : nat;
  rec_min : Z;
  rec_avg : Q;
  rec_radiation : option Z;        (* absent in the record of generation 0 *)
  rec_shock_event : option string  (* absent in the record of generation 0 *)
}.

Definition stats_compile (population : list Individual) : result (Z * Q) :=
  match fitness_values population with
  | None => Raise ValueError        (* ragged fitness tuples *)
  | Some vs => m <- np_min vs ;; Ok (m, np_mean vs)
  end.

(** [min(logbook.select('min'))] *)
Definition logbook_min (logbook : list LogRecord) : result Z :=
  match map rec_min logbook with
  | [] => Raise ValueError
  | x :: t => Ok (list_min x t)
  end.

(* ------------------------------------------------------------------ *)
(** ** The toolbox *)

(** The operators registered on the DEAP toolbox.  [rng] is the state of
    Python's [random] module, which [select] ([tools.selTournament]),
    [varAnd] ([algorithms.varAnd] over [mate] and [mutate]) and
    [populationCreator] ([tools.initRepeat]) read and advance.  [evaluate]
    looks at the genes only and returns the single fitness value. *)
Record Toolbox (rng : Type) : Type := mkToolbox {
  evaluate : list Z -> Z;
  select : rng -> list Individual -> Z -> list Individual * rng;
  varAnd : rng -> list Individual -> Q -> Q -> list Individual * rng;
  populationCreator : rng -> Z -> list Individual * rng
}.

(* ------------------------------------------------------------------ *)
(** ** The engine: [eaSimpleWithElitism] *)

(** The objects the caller passed in and the local variables of the
    function, as they stand between two statements. *)
Record State (rng : Type) : Type := mkState {
  population : list Individual;
  offspring : option (list Individual);   (* [None]: not yet assigned *)
  halloffame : HallOfFame;
  hof_size : Z;
  logbook : list LogRecord;
  stuck_count : Z;
  last_min : option Z;                    (* [None]: still [False] *)
  mutpb : Q;
  radiation : Z;
  random : rng
}.

(** What one pass through the loop body ends with. *)
Inductive step (rng : Type) : Type :=
| Next (s : State rng)              (* falls through to the next [gen] *)
| Break (s : State rng)             (* [break] *)
| Fail (e : exn) (s : State rng).   (* an exception leaves the function *)
Arguments Next {rng} s.
Arguments Break {rng} s.
Arguments Fail {rng} e s.

(** What the call ends with: the returned pair (with the final values of the
    locals), or an exception together with the caller's objects. *)
Inductive outcome (rng : Type) : Type :=
| Returned (s : State rng)
| Raised (e : exn) (population : list Individual)
         (halloffame : option HallOfFame) (logbook : list LogRecord).
Arguments Returned {rng} s.
Arguments Raised {rng} e population halloffame logbook.

Definition Comet_Strike : string := "Comet Strike".
Definition Radiation_Leak : string := "Radiation Leak".

(** [stuck[1] == name]; the default kind is [None]. *)
Definition kind_is (kind : option string) (name : string) : bool :=
  match kind with
  | Some k => String.eqb k name
  | None => false
  end.

(** Truth value of [last_min]: [False] and [0] are falsy. *)
Definition truthy (v : option Z) : bool :=
  match v with
  | Some x => negb (x =? 0)
  | None => false
  end.

Definition len (l : list Individual) : Z := Z.of_nat (length l).

Section Engine.

Context {rng : Type}.
Variable toolbox : Toolbox rng.
Variable cxpb : Q.
Variable save_mutpb : Q.             (* the [mutpb] argument *)
Variable stuck : Z * option string.  (* threshold and kind *)

(** Lines 16-19 and 76-79: give every invalid individual its fitness. *)
Definition evaluate_one (ind : Individual) : Individual :=
  if valid ind then ind else mkInd (genes ind) (Some (evaluate toolbox (genes ind))).

Definition evaluate_invalid (l : list Individual) : list Individual :=
  map evaluate_one l.

Definition invalid_ind (l : list Individual) : list Individual :=
  filter (fun ind => negb (valid ind)) l.

(** Lines 42-48. *)
Definition decay (s : State rng) : State rng :=
  let radiation' := Z.max (radiation s - 1) 0 in
  if radiation' =? 0 then
    mkState (population s) (offspring s) (halloffame s) (hof_size s) (logbook s)
            (stuck_count s) (last_min s) save_mutpb radiation' (random s)
  else
    mkState (population s) (offspring s) (halloffame s) (hof_size s) (logbook s)
            0 (last_min s) (mutpb s) radiation' (random s).

(** Lines 53-60, the body of [if stuck[1] == 'Comet Strike']. *)
Definition comet_strike (s : State rng) : State rng :=
  let '(fresh, r) := populationCreator toolbox (random s) (len (population s) - 3) in
  mkState (population s) (Some (fresh ++ firstn 3 (items (halloffame s))))
          (hof_clear (halloffame s)) (hof_size s) (logbook s)
          (stuck_count s) (last_min s) (mutpb s) (radiation s) r.

(** Lines 61-66, the body of [if stuck[1] == 'Radiation Leak']. *)
Definition radiation_leak (s : State rng) : State rng :=
  mkState (population s) (offspring s) (halloffame s) (hof_size s) (logbook s)
          (stuck_count s) (last_min s) (1 # 2) (fst stuck) (random s).

Definition reset_stuck_count (s : State rng) : State rng :=
  mkState (population s) (offspring s) (halloffame s) (hof_size s) (logbook s)
          0 (last_min s) (mutpb s) (radiation s) (random s).

(** Line 70. *)
Definition normal_selection (s : State rng) : State rng :=
  let '(chosen, r) :=
    select toolbox (random s) (population s) (len (population s) - hof_size s) in
  mkState (population s) (Some chosen) (halloffame s) (hof_size s) (logbook s)
          (stuck_count s) (last_min s) (mutpb s) (radiation s) r.

(** Lines 51-70: the state after the branch and the value of [shock_event]. *)
Definition dispatch (s : State rng) : State rng * string :=
  if fst stuck <? stuck_count s then
    let '(s1, ev1) :=
      if kind_is (snd stuck) Comet_Strike
      then (comet_strike s, Comet_Strike) else (s, EmptyString) in
    let '(s2, ev2) :=
      if kind_is (snd stuck) Radiation_Leak
      then (radiation_leak s1, Radiation_Leak) else (s1, ev1) in
    (reset_stuck_count s2, ev2)
  else (normal_selection s, EmptyString).

(** Lines 98-110: the stagnation counter after the record of this
    generation is in the logbook. *)
Definition count_stuck (last_min : option Z) (new_min stuck_count : Z) : Z :=
  if truthy last_min then
    match last_min with
    | Some lm => if new_min =? lm then stuck_count + 1 else 0
    | None => stuck_count   (* not reached: [False] is falsy *)
    end
  else stuck_count.

(** Lines 73-114, after the branch. *)
Definition vary_and_record (gen : Z) (shock_event : string) (s : State rng) : step rng :=
  match offspring s with
  | None => Fail UnboundLocalError s
  | Some pool =>
      let '(varied, r) := varAnd toolbox (random s) pool cxpb (mutpb s) in
      let nevals := length (invalid_ind varied) in
      let merged := evaluate_invalid varied ++ items (halloffame s) in
      match hof_update (halloffame s) merged with
      | Raise e =>
          Fail e (mkState (population s) (Some merged) (halloffame s) (hof_size s)
                          (logbook s) (stuck_count s) (last_min s) (mutpb s)
                          (radiation s) r)
      | Ok hof' =>
          match stats_compile merged with
          | Raise e =>
              Fail e (mkState merged (Some merged) hof' (hof_size s)
                              (logbook s) (stuck_count s) (last_min s) (mutpb s)
                              (radiation s) r)
          | Ok (m, a) =>
              let logbook' :=
                (logbook s ++
                 [mkRec gen nevals m a (Some (radiation s)) (Some shock_event)])%list in
              match logbook_min logbook' with
              | Raise e =>
                  Fail e (mkState merged (Some merged) hof' (hof_size s)
                                  logbook' (stuck_count s) (last_min s) (mutpb s)
                                  (radiation s) r)
              | Ok new_min =>
                  let s' :=
                    mkState merged (Some merged) hof' (hof_size s) logbook'
                            (count_stuck (last_min s) new_min (stuck_count s))
                            (Some new_min) (mutpb s) (radiation s) r in
                  if new_min =? 0 then Break s' else Next s'
              end
          end
      end
  end.

(** The body of [for gen in range(1, ngen + 1)]. *)
Definition generation (gen : Z) (s : State rng) : step rng :=
  let '(s1, shock_event) := dispatch (decay s) in
  vary_and_record gen shock_event s1.

Definition raised_in (e : exn) (s : State rng) : outcome rng :=
  Raised e (population s) (Some (halloffame s)) (logbook s).

(** [n] iterations are left, the next one is [gen]. *)
Fixpoint loop (n : nat) (gen : Z) (s : State rng) : outcome rng :=
  match n with
  | O => Returned s
  | S n' =>
      match generation gen s with
      | Next s' => loop n' (gen + 1) s'
      | Break s' => Returned s'
      | Fail e s' => raised_in e s'
      end
  end.

(** Lines 12-37: generation 0.  The result is the state the loop starts
    from.  [hof_update] can only raise on its first candidate, before it
    has changed the archive. *)
Definition generation0 (population0 : list Individual) (halloffame0 : option HallOfFame)
  (random0 : rng) : outcome rng + State rng :=
  let nevals := length (invalid_ind population0) in
  let pop := evaluate_invalid population0 in
  match halloffame0 with
  | None => inl (Raised ValueError pop None [])
  | Some hof =>
      match hof_update hof pop with
      | Raise e => inl (Raised e pop (Some hof) [])
      | Ok hof' =>
          match stats_compile pop with
          | Raise e => inl (Raised e pop (Some hof') [])
          | Ok (m, a) =>
              inr (mkState pop None hof' (hof_len hof')
                           [mkRec 0 nevals m a None None]
                           0 None save_mutpb 0 random0)
          end
      end
  end.

Definition eaSimpleWithElitism (population0 : list Individual) (ngen : Z)
  (halloffame0 : option HallOfFame) (random0 : rng) : outcome rng :=
  match generation0 population0 halloffame0 random0 with
  | inl raised => raised
  | inr s0 => loop (Z.to_nat ngen) 1 s0
  end.

End Engine.

(* ------------------------------------------------------------------ *)
(** ** The solver: [GASolver.ga_solve] *)

(** The attributes of a [GASolver] that [ga_solve] reads or writes.
    [solvable] and [solution] do not exist before the first call. *)
Record GASolver (Solution : Type) : Type := mkSolver {
  population_size : Z;
  max_generations : Z;
  hall_of_fame_size : Z;
  p_crossover : Q;
  p_mutation : Q;
  final_callback : bool;             (* is a callback attached? *)
  solved : bool;
  solvable : option bool;
  solution : option Solution;
  solver_logbook : option (list LogRecord)
}.

(** One invocation of [final_callback]: [final_callback(True, solution)] or
    [final_callback(False)]. *)
Inductive final_call (Solution : Type) : Type :=
| Call_solved (sol : Solution)
| Call_unsolved.
Arguments Call_solved {Solution} sol.
Arguments Call_unsolved {Solution}.

(** [__init__] leaves [solved = False]. *)
Definition new_solver {Solution : Type} (population_size max_generations hall_of_fame_size : Z)
  (p_crossover p_mutation : Q) (final_callback : bool) : GASolver Solution :=
  mkSolver population_size max_generations hall_of_fame_size p_crossover p_mutation
           final_callback false None None None.

Definition chernobyl : string := "chernobyl".

Section Solver.

Context {rng Solution : Type}.
Variable toolbox : Toolbox rng.
(** [self.n_sudoku.get_solution] lives in [src/sudoku.py], which is not among
    the sources; it decodes an individual and is taken as given. *)
Variable get_solution : Individual -> Solution.

(** Lines 107-111. *)
Definition run_engine (self : GASolver Solution) (random0 : rng) : outcome rng :=
  let '(new_population, r) := populationCreator toolbox random0 (population_size self) in
  let hof := mkHof (hall_of_fame_size self) [] in
  eaSimpleWithElitism toolbox (p_crossover self) (p_mutation self) (50, Some chernobyl)
                      new_population (max_generations self) (Some hof) r.

(** Lines 113-122, given the archive the engine left. *)
Definition conclude (self : GASolver Solution) (hof : HallOfFame) (log : list LogRecord)
  : result (GASolver Solution * list (final_call Solution)) :=
  match items hof with
  | [] => Raise IndexError                                   (* hof.items[0] *)
  | best :: _ =>
      let sol := get_solution best in
      match fitness best with
      | None => Raise IndexError                             (* values[0] of () *)
      | Some v =>
          if v =? 0 then
            Ok (mkSolver (population_size self) (max_generations self)
                         (hall_of_fame_size self) (p_crossover self) (p_mutation self)
                         (final_callback self) true (solvable self) (Some sol) (Some log),
                if final_callback self then [Call_solved sol] else [])
          else
            Ok (mkSolver (population_size self) (max_generations self)
                         (hall_of_fame_size self) (p_crossover self) (p_mutation self)
                         (final_callback self) (solved self) (Some false) (Some sol) (Some log),
                if final_callback self then [Call_unsolved] else [])
      end
  end.

Definition ga_solve (self : GASolver Solution) (random0 : rng)
  : result (GASolver Solution * list (final_call Solution)) :=
  match run_engine self random0 with
  | Raised e _ _ _ => Raise e
  | Returned s => conclude self (halloffame s) (logbook s)
  end.

End Solver.

(* ------------------------------------------------------------------ *)
(** ** Concrete collaborators

    Deterministic operators of the shape the toolbox expects, with the
    generator state a counter: each is one possible behaviour of the random
    operator it stands for. *)
Module Scenario.

Definition no_individual : Individual := mkInd [] None.

(** A tournament result: [k] members of the population, here taken in turn. *)
Definition select_in_turn (r : Z) (pop : list Individual) (k : Z)
  : list Individual * Z :=
  (map (fun i => nth (i mod length pop) pop no_individual) (seq 0 (Z.to_nat k)), r).

(** [varAnd] when no crossover and no mutation is drawn: clones only. *)
Definition vary_nothing (r : Z) (pool : list Individual) (cx mut : Q)
  : list Individual * Z := (pool, r).

(** [varAnd] when every clone is mutated: new genes, fitness deleted. *)
Definition vary_all (r : Z) (pool : list Individual) (cx mut : Q)
  : list Individual * Z :=
  (map (fun i => mkInd [r + Z.of_nat i] None) (seq 0 (length pool)),
   r + len pool).

(** [initRepeat]: [n] fresh individuals, number [r], [r+1], ... *)
Definition create (r : Z) (n : Z) : list Individual * Z :=
  (map (fun i => mkInd [r + Z.of_nat i] None) (seq 0 (Z.to_nat n)),
   r + Z.max n 0).

(** Every individual costs 1. *)
Definition flat : Toolbox Z :=
  mkToolbox (fun _ => 1) select_in_turn vary_nothing create.

(** The cost is the first gene, capped below by 1. *)
Definition first_gene : Toolbox Z :=
  mkToolbox (fun g => Z.max 1 (hd 1 g)) select_in_turn vary_all create.

(** Section 8 of the specification: cost 0 when the first gene is 5, else 1. *)
Definition five : Toolbox Z :=
  mkToolbox (fun g => if hd 0 g =? 5 then 0 else 1) select_in_turn vary_nothing create.

Definition sizes (o : outcome Z) : option (Z * Z) :=
  match o with
  | Returned s => Some (len (population s), hof_len (halloffame s))
  | Raised _ _ _ _ => None
  end.

End Scenario.

(* ------------------------------------------------------------------ *)
(** ** Predicates used in the statements *)

(** The value of a valid fitness. *)
Definition cost (i : Individual) : Z :=
  match fitness i with Some v => v | None => 0 end.

(** The individual carries the fitness its genes evaluate to. *)
Definition consistent (f : list Z -> Z) (i : Individual) : Prop :=
  fitness i = Some (f (genes i)).

(** Invalid, or carrying the fitness of its genes. *)
Definition sound (f : list Z -> Z) (i : Individual) : Prop :=
  fitness i = None \/ consistent f i.

Definition cost_le (a b : Individual) : Prop := cost a <= cost b.

(** Every member of [l] is matched or beaten by a member of [l']. *)
Definition covers (l' l : list Individual) : Prop :=
  forall i, In i l -> exists m, In m l' /\ cost m <= cost i.

(** A well-formed archive: evaluated members, best first. *)
Definition hof_wf (f : list Z -> Z) (h : HallOfFame) : Prop :=
  Forall (consistent f) (items h) /\ StronglySorted cost_le (items h).

(** What DEAP's operators guarantee whatever the random draws. *)
Record ToolboxLaws {rng : Type} (tb : Toolbox rng) : Prop := mkLaws {
  (* selTournament: [k] picks, each a member of the population *)
  select_length : forall r pop k, pop <> [] ->
    length (fst (select tb r pop k)) = Z.to_nat k;
  select_incl : forall r pop k, pop <> [] ->
    incl (fst (select tb r pop k)) pop;
  (* varAnd: one clone per member, its fitness deleted when it was touched *)
  varAnd_length : forall r pool cx mu,
    length (fst (varAnd tb r pool cx mu)) = length pool;
  varAnd_clone : forall r pool cx mu i,
    In i (fst (varAnd tb r pool cx mu)) -> fitness i = None \/ In i pool;
  (* initRepeat: [n] new individuals, none evaluated *)
  creator_length : forall r n,
    length (fst (populationCreator tb r n)) = Z.to_nat n;
  creator_fresh : forall r n i,
    In i (fst (populationCreator tb r n)) -> fitness i = None
}.

(** The [min] column of a logbook. *)
Definition mins (log : list LogRecord) : list Z := map rec_min log.

(** The generation of the last record. *)
Definition last_gen (log : list LogRecord) : Z :=
  rec_gen (last log (mkRec 0 0 0 0 None None)).

Definition outcome_logbook {rng} (o : outcome rng) : list LogRecord :=
  match o with
  | Returned s => logbook s
  | Raised _ _ _ log => log
  end.

Definition outcome_population {rng} (o : outcome rng) : list Individual :=
  match o with
  | Returned s => population s
  | Raised _ pop _ _ => pop
  end.

Definition outcome_halloffame {rng} (o : outcome rng) : option HallOfFame :=
  match o with
  | Returned s => Some (halloffame s)
  | Raised _ _ hof _ => hof
  end.

(** No regression between two consecutive records unless the later one is
    the record of a Comet Strike generation. *)
Definition log_mono (log : list LogRecord) : Prop :=
  forall pre r1 r2 post, log = (pre ++ r1 :: r2 :: post)%list ->
    rec_shock_event r2 <> Some Comet_Strike -> rec_min r2 <= rec_min r1.

Section Reachability.

Context {rng : Type}.
Variable toolbox : Toolbox rng.
Variable cxpb : Q.
Variable save_mutpb : Q.
Variable stuck : Z * option string.

(** [n] further generations, the next one [gen], none of which breaks or
    raises. *)
Fixpoint after (n : nat) (gen : Z) (s : State rng) : option (State rng) :=
  match n with
  | O => Some s
  | S n' =>
      match generation toolbox cxpb save_mutpb stuck gen s with
      | Next s' => after n' (gen + 1) s'
      | _ => None
      end
  end.

(** [s] is the state at the end of generation [n] of a call that was given
    an empty archive of capacity [K]; generation [n + 1] is next. *)
Definition reached (population0 : list Individual) (K : Z)
  (random0 : rng) (n : nat) (s : State rng) : Prop :=
  exists s0,
    generation0 toolbox save_mutpb population0 (Some (mkHof K [])) random0 = inr s0 /\
    after n 1 s0 = Some s.

(** The state in which the body of generation [gen] ends, however it ends. *)
Definition step_state (st : step rng) : State rng :=
  match st with Next s | Break s | Fail _ s => s end.

(** The data the loop maintains between generations. *)
Record Inv (s : State rng) : Prop := mkInv {
  inv_population : Forall (consistent (evaluate toolbox)) (population s);
  inv_hof : hof_wf (evaluate toolbox) (halloffame s);
  inv_hof_nonempty : items (halloffame s) <> [];
  inv_capacity : maxsize (halloffame s) <> 0;
  inv_covers : covers (items (halloffame s)) (population s);
  inv_record : exists log r, logbook s = (log ++ [r])%list /\
      (exists i, In i (population s) /\ cost i = rec_min r) /\
      (forall i, In i (population s) -> rec_min r <= cost i);
  inv_mono : log_mono (logbook s);
  inv_mins : forall rec, In rec (logbook s) ->
      exists g, rec_min rec = evaluate toolbox g
}.

(** The stagnation bookkeeping between generations. *)
Record Ctl (s : State rng) : Prop := mkCtl {
  ctl_first : last_min s = None ->
      stuck_count s = 0 /\ offspring s = None /\ length (logbook s) = 1%nat;
  ctl_later : forall v, last_min s = Some v ->
      v <> 0 /\ logbook_min (logbook s) = Ok v /\ offspring s = Some (population s);
  ctl_count : 0 <= stuck_count s
}.

(** The part of the bookkeeping that needs no assumption on the toolbox. *)
Record Counting (s : State rng) : Prop := mkCounting {
  counting_first : last_min s = None -> stuck_count s = 0;
  counting_later : forall v, last_min s = Some v -> v <> 0
}.

End Reachability.

(** An archive within its capacity and not empty. *)
Definition filled (K : Z) (h : HallOfFame) : Prop :=
  maxsize h = K /\ 1 <= hof_len h <= K.

(** Generation numbers in the logbook are positions. *)
Definition numbered (log : list LogRecord) : Prop :=
  forall pre rec post, log = (pre ++ rec :: post)%list ->
    rec_gen rec = Z.of_nat (length pre).

(** Concrete runs of the engine on the collaborators of [Scenario]. *)
Module Runs.

Definition idle : State Z :=
  mkState [] None (mkHof 0 []) 0 [] 0 None 0 0 0.

(** The state at the end of generation [n]; [idle] if the run did not get
    there. *)
Definition state_at (tb : Toolbox Z) (cx mu : Q) (stuck : Z * option string)
  (pop0 : list Individual) (K : Z) (r : Z) (n : nat) : State Z :=
  match generation0 tb mu pop0 (Some (mkHof K [])) r with
  | inr s0 =>
      match after tb cx mu stuck n 1 s0 with
      | Some s => s
      | None => idle
      end
  | inl _ => idle
  end.

(** The population length at the end of every generation up to [n]. *)
Definition lengths (tb : Toolbox Z) (cx mu : Q) (stuck : Z * option string)
  (pop0 : list Individual) (K : Z) (r : Z) (n : nat) : list Z :=
  map (fun g => len (population (state_at tb cx mu stuck pop0 K r g))) (seq 0 (S n)).

(** The solver's call with a threshold of 1 in place of 50, so that a run
    that never improves stagnates at generation 4. *)
Definition leak_at (n : nat) : State Z :=
  state_at Scenario.flat (9 # 10) (1 # 5) (1, Some Radiation_Leak)
           (fst (Scenario.create 0 4)) 2 4 n.

(** A strike on an archive of one: five copies of one individual, an
    archive of capacity 3. *)
Definition strike_at (n : nat) : State Z :=
  state_at Scenario.flat (9 # 10) (1 # 5) (1, Some Comet_Strike)
           (repeat (mkInd [7] None) 5) 3 100 n.

(** Four fresh individuals, numbered from 0. *)
Definition four : list Individual := fst (Scenario.create 0 4).

(** Ten fresh individuals; the sixth has first gene 5. *)
Definition ten : list Individual := fst (Scenario.create 0 10).

(** Five copies of one fresh individual. *)
Definition clones : list Individual := repeat (mkInd [7] None) 5.

End Runs.

(* ------------------------------------------------------------------ *)
(** ** The rest of [GASolver] *)

(** [GASolver.get_solution]: [(self.solution, self.solved)].  The attribute
    [solution] exists only once [ga_solve] has assigned it; [None] stands
    for the [AttributeError] of reading it earlier. *)
Definition GASolver_get_solution {Solution : Type} (self : GASolver Solution)
  : option (Solution * bool) :=
  match solution self with
  | Some sol => Some (sol, solved self)
  | None => None
  end.

(** [GASolver.get_stats]: [self.logbook], with the same convention. *)
Definition GASolver_get_stats {Solution : Type} (self : GASolver Solution)
  : option (list LogRecord) := solver_logbook self.

(** The creation operators [__init__] registers on the toolbox. *)
Module Operators.
Section Creation.

Context {rng : Type}.
(** [random.randint(a, b)]: an integer of [a..b] and the advanced generator;
    [ValueError] on an empty range. *)
Variable randint : rng -> Z -> Z -> result (Z * rng).
(** [self.n_sudoku.possibility_range], from [src/sudoku.py], which is not
    among the sources: the upper limit of every gene. *)
Variable possibility_range : list Z.

(** [[random.randint(0, i) for i in ranges]] *)
Fixpoint random_genes (r : rng) (ranges : list Z) : result (list Z * rng) :=
  match ranges with
  | [] => Ok ([], r)
  | i :: t =>
      p <- randint r 0 i ;;
      q <- random_genes (snd p) t ;;
      Ok (fst p :: fst q, snd q)
  end.

(** [GASolver.random_sudoku] *)
Definition random_sudoku (r : rng) : result (list Z * rng) :=
  random_genes r possibility_range.

(** [tools.initIterate(creator.Individual, self.toolbox.randomSudoku)]: a new
    individual around the generated genes; its fitness is not valid. *)
Definition individualCreator (r : rng) : result (Individual * rng) :=
  p <- random_sudoku r ;; Ok (mkInd (fst p) None, snd p).

(** [tools.initRepeat(list, self.toolbox.individualCreator, n)] for
    [range(n)] of [k] elements. *)
Fixpoint initRepeat (k : nat) (r : rng) : result (list Individual * rng) :=
  match k with
  | O => Ok ([], r)
  | S k' =>
      p <- individualCreator r ;;
      q <- initRepeat k' (snd p) ;;
      Ok (fst p :: fst q, snd q)
  end.

(** [self.toolbox.populationCreator(n)] *)
Definition populationCreator (r : rng) (n : Z) : result (list Individual * rng) :=
  initRepeat (Z.to_nat n) r.

End Creation.
End Operators.

(** Every gene lies between 0 and the limit of its position. *)
Definition within (limits genes : list Z) : Prop :=
  Forall2 (fun g u => 0 <= g <= u) genes limits.

(** A [randint] that walks through the range as the generator counts up. *)
Definition cyclic_randint (r a b : Z) : result (Z * Z) :=
  if a <=? b then Ok (a + r mod (b - a + 1), r + 1) else Raise ValueError.

(* ------------------------------------------------------------------ *)
(** ** Lists, minima *)

Lemma list_min_le_init (l : list Z) (x : Z) : list_min x l <= x.
Proof.
  unfold list_min. revert x.
  induction l as [|a l IH]; intros x; simpl; [lia|].
  specialize (IH (Z.min x a)). lia.
Qed.

Lemma list_min_le_In (l : list Z) (x y : Z) : In y l -> list_min x l <= y.
Proof.
  unfold list_min. revert x.
  induction l as [|a l IH]; intros x H; simpl in *; [tauto|].
  destruct H as [->|H].
  - pose proof (list_min_le_init l (Z.min x y)). unfold list_min in *. lia.
  - apply IH, H.
Qed.

Lemma list_min_In (l : list Z) (x : Z) : In (list_min x l) (x :: l).
Proof.
  unfold list_min. revert x.
  induction l as [|a l IH]; intros x; simpl; [auto|].
  destruct (IH (Z.min x a)) as [H|H]; [|auto].
  rewrite <- H. destruct (Z.min_spec x a) as [[_ E]|[_ E]]; rewrite E; auto.
Qed.

Lemma list_min_app (l1 l2 : list Z) (x : Z) :
  list_min x (l1 ++ l2) = list_min (list_min x l1) l2.
Proof. unfold list_min. apply fold_left_app. Qed.

Lemma list_min_snoc (l : list Z) (x y : Z) :
  list_min x (l ++ [y]) = Z.min (list_min x l) y.
Proof. rewrite list_min_app. reflexivity. Qed.

Lemma np_min_Ok (l : list Z) (m : Z) :
  np_min l = Ok m -> l <> [] /\ In m l /\ forall y, In y l -> m <= y.
Proof.
  destruct l as [|x t]; simpl; [discriminate|].
  intros H. injection H as <-. split; [discriminate|]. split.
  - apply list_min_In.
  - intros y [->|Hy]; [apply list_min_le_init | now apply list_min_le_In].
Qed.

Lemma fitness_values_Some (l : list Individual) (vs : list Z) :
  fitness_values l = Some vs -> vs = map cost l /\ Forall (fun i => valid i = true) l.
Proof.
  revert vs. induction l as [|i l IH]; simpl; intros vs H.
  - injection H as <-. auto.
  - unfold cost, valid at 1. destruct (fitness i) as [v|] eqn:E; [|discriminate].
    destruct (fitness_values l) as [vs'|]; [|discriminate].
    injection H as <-. destruct (IH _ eq_refl) as [-> HF]. split; [reflexivity|].
    constructor; [unfold valid; now rewrite E|assumption].
Qed.

Lemma fitness_values_valid (l : list Individual) :
  Forall (fun i => valid i = true) l -> fitness_values l = Some (map cost l).
Proof.
  induction 1 as [|i l Hi _ IH]; simpl; [reflexivity|].
  unfold valid in Hi. unfold cost at 1. destruct (fitness i); [|discriminate].
  now rewrite IH.
Qed.

Lemma stats_compile_Ok (pop : list Individual) (m : Z) (a : Q) :
  stats_compile pop = Ok (m, a) ->
  pop <> [] /\ (exists i, In i pop /\ cost i = m) /\
  (forall i, In i pop -> m <= cost i) /\ Forall (fun i => valid i = true) pop.
Proof.
  unfold stats_compile. destruct (fitness_values pop) as [vs|] eqn:E; [|discriminate].
  apply fitness_values_Some in E. destruct E as [-> HV].
  destruct (np_min (map cost pop)) as [m'|] eqn:Em; simpl; [|discriminate].
  intros H. injection H as -> _. apply np_min_Ok in Em.
  destruct Em as (Hne & Hin & Hle). repeat split.
  - intros ->. now apply Hne.
  - apply in_map_iff in Hin. destruct Hin as (i & Hi & Hin). eauto.
  - intros i Hi. apply Hle. now apply in_map.
  - exact HV.
Qed.

(* ------------------------------------------------------------------ *)
(** ** The archive *)

Lemma consistent_valid f i : consistent f i -> valid i = true.
Proof. unfold consistent, valid. now intros ->. Qed.

Lemma consistent_cost f i : consistent f i -> cost i = f (genes i).
Proof. unfold consistent, cost. now intros ->. Qed.

Lemma fitness_gt_cost (a b : Individual) :
  valid a = true -> valid b = true ->
  fitness_gt a b = true <-> cost a < cost b.
Proof.
  unfold valid, fitness_gt, wvalues, cost.
  destruct (fitness a), (fitness b); try discriminate; intros _ _; simpl.
  rewrite negb_true_iff, Z.leb_gt. lia.
Qed.

Lemma fitness_lt_cost (a b : Individual) :
  valid a = true -> valid b = true ->
  fitness_lt a b = true <-> cost b < cost a.
Proof.
  unfold valid, fitness_lt, wvalues, cost.
  destruct (fitness a), (fitness b); try discriminate; intros _ _; simpl.
  rewrite Z.ltb_lt. lia.
Qed.

Lemma np_equal_genes (a b : Individual) : np_equal a b = true <-> genes a = genes b.
Proof.
  unfold np_equal. destruct (list_eq_dec Z.eq_dec (genes a) (genes b)); split;
    intros; congruence.
Qed.

Lemma np_equal_cost f a b :
  consistent f a -> consistent f b -> np_equal a b = true -> cost a = cost b.
Proof.
  intros Ha Hb E. apply np_equal_genes in E.
  rewrite (consistent_cost Ha), (consistent_cost Hb). now rewrite E.
Qed.

Lemma insert_sorted_In (item x : Individual) (l : list Individual) :
  In x (insert_sorted item l) <-> x = item \/ In x l.
Proof.
  induction l as [|h t IH]; simpl.
  - intuition.
  - destruct (fitness_lt item h); simpl; rewrite ?IH; intuition.
Qed.

Lemma insert_sorted_length (item : Individual) (l : list Individual) :
  length (insert_sorted item l) = S (length l).
Proof.
  induction l as [|h t IH]; simpl; [reflexivity|].
  destruct (fitness_lt item h); simpl; now rewrite ?IH.
Qed.

Lemma insert_sorted_sorted f (item : Individual) (l : list Individual) :
  consistent f item -> Forall (consistent f) l ->
  StronglySorted cost_le l -> StronglySorted cost_le (insert_sorted item l).
Proof.
  intros Hi HF HS. induction l as [|h t IH]; simpl.
  - repeat constructor.
  - inversion HF as [|? ? Hh HFt]; subst. inversion HS as [|? ? HSt Hle]; subst.
    destruct (fitness_lt item h) eqn:E.
    + constructor; [now apply IH|].
      apply Forall_forall. intros x Hx. apply insert_sorted_In in Hx.
      destruct Hx as [->|Hx].
      * apply fitness_lt_cost in E; eauto using consistent_valid.
        unfold cost_le. lia.
      * rewrite Forall_forall in Hle. now apply Hle.
    + assert (Hih : cost item <= cost h).
      { destruct (Z_lt_le_dec (cost h) (cost item)) as [Hlt|]; [|assumption].
        apply fitness_lt_cost in Hlt; eauto using consistent_valid. congruence. }
      constructor; [assumption|]. constructor; [exact Hih|].
      rewrite Forall_forall in Hle |- *. intros x Hx.
      specialize (Hle x Hx). unfold cost_le in *. lia.
Qed.

Lemma In_removelast (x : Individual) (l : list Individual) :
  In x (removelast l) -> In x l.
Proof.
  induction l as [|h t IH]; simpl; [tauto|].
  destruct t as [|h' t']; [simpl; tauto|].
  intros [->|H]; [now left|right; now apply IH].
Qed.

Lemma removelast_sorted (l : list Individual) :
  StronglySorted cost_le l -> StronglySorted cost_le (removelast l).
Proof.
  induction 1 as [|h t HS IH Hle]; simpl; [constructor|].
  destruct t as [|h' t']; [constructor|].
  constructor; [exact IH|].
  rewrite Forall_forall in Hle |- *. intros x Hx. apply Hle.
  now apply In_removelast.
Qed.

Lemma rev_worst (l : list Individual) (worst : Individual) (rest : list Individual) :
  rev l = worst :: rest -> l = removelast l ++ [worst].
Proof.
  intros H. assert (Hl : l = rev rest ++ [worst]).
  { rewrite <- (rev_involutive l), H. reflexivity. }
  rewrite Hl at 2. rewrite removelast_last. exact Hl.
Qed.

Lemma sorted_head_least (h : Individual) (t : list Individual) (x : Individual) :
  StronglySorted cost_le (h :: t) -> In x (h :: t) -> cost h <= cost x.
Proof.
  intros HS [->|Hx]; [lia|].
  inversion HS as [|? ? _ Hle]; subst. rewrite Forall_forall in Hle.
  now apply Hle.
Qed.

(** One candidate: the archive stays well formed and bounded, is not empty
    afterwards, matches or beats the candidate, and loses nothing it does
    not replace by something better. *)
Lemma hof_update_one_spec f (first ind : Individual) (h h' : HallOfFame) :
  hof_wf f h -> consistent f ind -> consistent f first ->
  (items h = [] -> first = ind) ->
  hof_update_one first h ind = Ok h' ->
  hof_wf f h' /\ maxsize h' = maxsize h /\ items h' <> [] /\
  covers (items h') [ind] /\ covers (items h') (items h) /\
  (0 <= maxsize h -> hof_len h <= maxsize h -> hof_len h' <= maxsize h) /\
  (forall m, In m (items h') -> m = ind \/ In m (items h)).
Proof.
  intros [HF HS] Hind Hfirst Hempty. unfold hof_update_one.
  assert (Hins : forall l x, consistent f x -> Forall (consistent f) l ->
                 Forall (consistent f) (insert_sorted x l)).
  { intros l x Hx Hl. rewrite Forall_forall in Hl |- *. intros y Hy.
    apply insert_sorted_In in Hy. destruct Hy as [->|Hy]; auto. }
  assert (Hne : forall l x, insert_sorted x l <> []).
  { intros l x E. apply (f_equal (@length _)) in E.
    rewrite insert_sorted_length in E. discriminate. }
  destruct ((hof_len h =? 0) && negb (maxsize h =? 0)) eqn:E0.
  - (* the archive is empty: [population[0]] goes in *)
    apply andb_true_iff in E0. destruct E0 as [El Em].
    apply Z.eqb_eq in El. apply negb_true_iff, Z.eqb_neq in Em.
    assert (Hitems : items h = []).
    { unfold hof_len in El. destruct (items h); [reflexivity|simpl in El; lia]. }
    specialize (Hempty Hitems). subst first.
    intros H. injection H as <-. unfold hof_insert, hof_len, covers; simpl.
    rewrite Hitems. simpl. repeat split.
    + repeat constructor; assumption.
    + repeat constructor.
    + discriminate.
    + intros i [<-|[]]. exists ind. split; [now left|lia].
    + intros i [].
    + lia.
    + intros m [<-|[]]. now left.
  - destruct (rev (items h)) as [|worst rest] eqn:Er; [discriminate|].
    apply rev_worst in Er.
    assert (Hworst : In worst (items h)).
    { rewrite Er. apply in_or_app. right. now left. }
    assert (Hnonempty : items h <> []).
    { intros E. rewrite E in Hworst. destruct Hworst. }
    assert (Hcw : consistent f worst).
    { rewrite Forall_forall in HF. now apply HF. }
    assert (Hself : covers (items h) (items h)).
    { intros i Hi. exists i. split; [assumption|lia]. }
    destruct (fitness_gt ind worst || (hof_len h <? maxsize h)) eqn:Eg.
    + destruct (existsb (np_equal ind) (items h)) eqn:Ex.
      * (* a duplicate is already archived *)
        intros H. injection H as <-. repeat split; auto.
        intros i [<-|[]]. apply existsb_exists in Ex. destruct Ex as (m & Hm & Es).
        exists m. split; [assumption|].
        rewrite Forall_forall in HF.
        rewrite (np_equal_cost Hind (HF m Hm) Es). lia.
      * destruct (maxsize h <=? hof_len h) eqn:Efull.
        -- (* full: the worst member leaves, the candidate beats it *)
           apply Z.leb_le in Efull.
           assert (Hbeat : cost ind < cost worst).
           { apply orb_true_iff in Eg. destruct Eg as [Eg|Eg].
             - apply fitness_gt_cost in Eg; eauto using consistent_valid.
             - apply Z.ltb_lt in Eg. lia. }
           intros H. injection H as <-. unfold hof_insert, hof_remove_last; simpl.
           assert (HFr : Forall (consistent f) (removelast (items h))).
           { rewrite Forall_forall in HF |- *. intros x Hx.
             apply HF. now apply In_removelast. }
           repeat split.
           ++ now apply Hins.
           ++ eapply insert_sorted_sorted; eauto. now apply removelast_sorted.
           ++ apply Hne.
           ++ intros i [<-|[]]. exists ind. split; [|lia].
              apply insert_sorted_In. now left.
           ++ intros i Hi. rewrite Er in Hi. apply in_app_or in Hi.
              destruct Hi as [Hi|[<-|[]]].
              ** exists i. split; [|lia]. apply insert_sorted_In. now right.
              ** exists ind. split; [|lia]. apply insert_sorted_In. now left.
           ++ intros _ Hb. unfold hof_len in *; simpl.
              rewrite insert_sorted_length.
              assert (length (items h) = S (length (removelast (items h)))).
              { rewrite Er at 1. rewrite length_app. simpl. lia. }
              lia.
           ++ intros m Hm. apply insert_sorted_In in Hm.
              destruct Hm as [->|Hm]; [now left|right; now apply In_removelast].
        -- (* room left *)
           apply Z.leb_gt in Efull.
           intros H. injection H as <-. unfold hof_insert; simpl. repeat split.
           ++ now apply Hins.
           ++ eapply insert_sorted_sorted; eauto.
           ++ apply Hne.
           ++ intros i [<-|[]]. exists ind. split; [|lia].
              apply insert_sorted_In. now left.
           ++ intros i Hi. exists i. split; [|lia].
              apply insert_sorted_In. now right.
           ++ intros _ _. unfold hof_len in *; simpl.
              rewrite insert_sorted_length. lia.
           ++ intros m Hm. apply insert_sorted_In in Hm. tauto.
    + (* neither better than the worst nor room *)
      apply orb_false_iff in Eg. destruct Eg as [Eg _].
      intros H. injection H as <-. repeat split; auto.
      intros i [<-|[]]. exists worst. split; [assumption|].
      destruct (Z_lt_le_dec (cost ind) (cost worst)) as [Hlt|]; [|assumption].
      apply fitness_gt_cost in Hlt; eauto using consistent_valid. congruence.
Qed.

Lemma covers_trans (l3 l2 l1 : list Individual) :
  covers l3 l2 -> covers l2 l1 -> covers l3 l1.
Proof.
  intros H32 H21 i Hi. destruct (H21 i Hi) as (m & Hm & Hle).
  destruct (H32 m Hm) as (m' & Hm' & Hle'). exists m'. split; [assumption|lia].
Qed.

Lemma covers_refl (l : list Individual) : covers l l.
Proof. intros i Hi. exists i. split; [assumption|lia]. Qed.

Lemma covers_incl (l' l : list Individual) : incl l l' -> covers l' l.
Proof. intros H i Hi. exists i. split; [now apply H|lia]. Qed.

Lemma hof_update_from_spec f (first : Individual) (l : list Individual) :
  forall (h h' : HallOfFame),
  hof_wf f h -> Forall (consistent f) l -> consistent f first ->
  (items h = [] -> forall x t, l = x :: t -> first = x) ->
  hof_update_from first h l = Ok h' ->
  hof_wf f h' /\ maxsize h' = maxsize h /\
  (l <> [] \/ items h <> [] -> items h' <> []) /\
  covers (items h') l /\ covers (items h') (items h) /\
  (0 <= maxsize h -> hof_len h <= maxsize h -> hof_len h' <= maxsize h) /\
  (forall m, In m (items h') -> In m l \/ In m (items h)).
Proof.
  induction l as [|ind t IH]; intros h h' Hwf HF Hfirst Hempty; simpl.
  - intros H. injection H as <-. repeat split; try tauto.
    + now destruct Hwf.
    + now destruct Hwf.
    + intros i [].
    + apply covers_refl.
  - destruct (hof_update_one first h ind) as [h1|e] eqn:E1; simpl; [|discriminate].
    intros Hrest. inversion HF as [|? ? Hind HFt]; subst.
    assert (Hfi : items h = [] -> first = ind).
    { intros Hi. now apply (Hempty Hi ind t). }
    destruct (hof_update_one_spec Hwf Hind Hfirst Hfi E1)
      as (Hwf1 & Hm1 & Hne1 & Hc1 & Hk1 & Hb1 & Hin1).
    destruct (IH h1 h' Hwf1 HFt Hfirst) as (Hwf' & Hm' & Hne' & Hc' & Hk' & Hb' & Hin');
      [intros; contradiction | exact Hrest |].
    repeat split.
    + now destruct Hwf'.
    + now destruct Hwf'.
    + congruence.
    + intros _. apply Hne'. now right.
    + intros i [<-|Hi].
      * apply (covers_trans Hk' Hc1). now left.
      * now apply Hc'.
    + now apply (covers_trans Hk' Hk1).
    + intros H0 Hb. rewrite Hm1 in Hb'. apply Hb'; [assumption|]. now apply Hb1.
    + intros m Hm. destruct (Hin' m Hm) as [H|H]; [left; now right|].
      destruct (Hin1 m H) as [->|H']; [left; now left|now right].
Qed.

(** [halloffame.update(population)] on evaluated individuals. *)
Lemma hof_update_spec f (pop : list Individual) (h h' : HallOfFame) :
  hof_wf f h -> Forall (consistent f) pop ->
  hof_update h pop = Ok h' ->
  hof_wf f h' /\ maxsize h' = maxsize h /\
  (pop <> [] \/ items h <> [] -> items h' <> []) /\
  covers (items h') pop /\ covers (items h') (items h) /\
  (0 <= maxsize h -> hof_len h <= maxsize h -> hof_len h' <= maxsize h) /\
  (forall m, In m (items h') -> In m pop \/ In m (items h)).
Proof.
  intros Hwf HF. destruct pop as [|first t]; unfold hof_update.
  - intros H. injection H as <-. destruct Hwf. repeat split; try tauto.
    + intros i [].
    + apply covers_refl.
  - intros H. inversion HF; subst.
    apply (hof_update_from_spec Hwf HF (first := first)); auto.
    intros _ x t' E. now injection E.
Qed.

(** [update] raises only on an empty archive of capacity 0. *)
Lemma hof_update_one_total (first ind : Individual) (h : HallOfFame) :
  items h <> [] \/ maxsize h <> 0 ->
  exists h', hof_update_one first h ind = Ok h' /\ items h' <> [] /\
             maxsize h' = maxsize h.
Proof.
  intros H. unfold hof_update_one.
  assert (Hne : forall l x, insert_sorted x l <> []).
  { intros l x E. apply (f_equal (@length _)) in E.
    rewrite insert_sorted_length in E. discriminate. }
  destruct ((hof_len h =? 0) && negb (maxsize h =? 0)) eqn:E0.
  - eexists. split; [reflexivity|]. split; [apply Hne|reflexivity].
  - assert (Hitems : items h <> []).
    { destruct H as [H|H]; [assumption|]. intros Hi.
      unfold hof_len in E0. rewrite Hi in E0. simpl in E0.
      apply Z.eqb_neq in H. rewrite H in E0. discriminate. }
    destruct (rev (items h)) as [|worst rest] eqn:Er.
    { apply (f_equal (@rev _)) in Er. rewrite rev_involutive in Er. contradiction. }
    destruct (fitness_gt ind worst || (hof_len h <? maxsize h)).
    + destruct (existsb (np_equal ind) (items h)).
      * eexists; split; [reflexivity|]. auto.
      * destruct (maxsize h <=? hof_len h); eexists;
          (split; [reflexivity|]); (split; [apply Hne|reflexivity]).
    + eexists; split; [reflexivity|]. auto.
Qed.

Lemma hof_update_total (pop : list Individual) (h : HallOfFame) :
  items h <> [] \/ maxsize h <> 0 -> exists h', hof_update h pop = Ok h'.
Proof.
  intros H. destruct pop as [|first t]; unfold hof_update; [eauto|].
  generalize (first :: t) as l. intros l. revert h H.
  induction l as [|ind l IH]; intros h H; simpl; [eauto|].
  destruct (@hof_update_one_total first ind h H) as (h1 & -> & Hne & _). simpl.
  apply IH. now left.
Qed.

Lemma stats_compile_total (pop : list Individual) :
  pop <> [] -> Forall (fun i => valid i = true) pop ->
  exists m a, stats_compile pop = Ok (m, a).
Proof.
  intros Hne HV. unfold stats_compile. rewrite (fitness_values_valid HV).
  destruct pop as [|i t]; [contradiction|]. simpl. eauto.
Qed.

(* ------------------------------------------------------------------ *)
(** ** The loop body *)

Lemma kind_is_exclusive (kind : option string) :
  kind_is kind Comet_Strike = true -> kind_is kind Radiation_Leak = false.
Proof.
  destruct kind as [k|]; simpl; [|discriminate].
  intros H. apply String.eqb_eq in H. subst k. reflexivity.
Qed.

Lemma logbook_min_snoc (log : list LogRecord) (r : LogRecord) :
  exists v, logbook_min (log ++ [r]) = Ok v /\ v <= rec_min r /\
            (forall x, In x log -> v <= rec_min x) /\
            (forall u, logbook_min log = Ok u -> v = Z.min u (rec_min r)) /\
            (log = [] -> v = rec_min r).
Proof.
  unfold logbook_min. rewrite map_app. simpl.
  destruct log as [|x t]; simpl.
  - exists (rec_min r). split; [reflexivity|]. split; [lia|].
    split; [|split].
    + intros x [].
    + discriminate.
    + reflexivity.
  - exists (list_min (rec_min x) (map rec_min t ++ [rec_min r])).
    rewrite list_min_snoc. split; [reflexivity|]. split; [lia|].
    split; [|split].
    + intros y [Hy|Hy].
      * subst y. pose proof (list_min_le_init (map rec_min t) (rec_min x)). lia.
      * pose proof (list_min_le_In (map rec_min t) (rec_min x) (rec_min y)
                      (in_map rec_min _ _ Hy)). lia.
    + intros u H. now injection H as <-.
    + discriminate.
Qed.

Section EngineFacts.

Context {rng : Type}.
Variable toolbox : Toolbox rng.
Variable cxpb : Q.
Variable save_mutpb : Q.
Variable stuck : Z * option string.

Local Abbreviation f := (evaluate toolbox).
Local Abbreviation body := (generation toolbox cxpb save_mutpb stuck).
Local Abbreviation record_after := (vary_and_record toolbox cxpb).
Local Abbreviation branch := (dispatch toolbox stuck).
Local Abbreviation decayed := (decay save_mutpb).
Local Abbreviation evaluated := (evaluate_invalid toolbox).

Lemma evaluate_invalid_length (l : list Individual) :
  length (evaluated l) = length l.
Proof. apply length_map. Qed.

Lemma evaluate_invalid_consistent (l : list Individual) :
  Forall (sound f) l -> Forall (consistent f) (evaluated l).
Proof.
  induction 1 as [|i l Hi _ IH]; simpl; constructor; [|exact IH].
  unfold evaluate_one, valid. destruct Hi as [Hi|Hi].
  - rewrite Hi. reflexivity.
  - red in Hi. rewrite Hi. exact Hi.
Qed.

Lemma consistent_sound (l : list Individual) :
  Forall (consistent f) l -> Forall (sound f) l.
Proof. apply Forall_impl. intros i H. now right. Qed.

(** The body after the branch, when the archive update and the statistics
    go through: the state it ends in, and whether it breaks. *)
Lemma vary_and_record_ok (gen : Z) (ev : string) (s : State rng)
  (pool : list Individual) (hof' : HallOfFame) (m : Z) (a : Q) :
  offspring s = Some pool ->
  let varied := fst (varAnd toolbox (random s) pool cxpb (mutpb s)) in
  let merged := (evaluated varied ++ items (halloffame s))%list in
  let log' := (logbook s ++ [mkRec gen (length (invalid_ind varied)) m a
                                   (Some (radiation s)) (Some ev)])%list in
  hof_update (halloffame s) merged = Ok hof' ->
  stats_compile merged = Ok (m, a) ->
  exists new_min, logbook_min log' = Ok new_min /\
    let s' := mkState merged (Some merged) hof' (hof_size s) log'
                      (count_stuck (last_min s) new_min (stuck_count s))
                      (Some new_min) (mutpb s) (radiation s)
                      (snd (varAnd toolbox (random s) pool cxpb (mutpb s))) in
    record_after gen ev s = if new_min =? 0 then Break s' else Next s'.
Proof.
  intros Hpool varied merged log' Hupd Hstats.
  destruct (logbook_min_snoc (logbook s)
              (mkRec gen (length (invalid_ind varied)) m a
                     (Some (radiation s)) (Some ev))) as (v & Hv & _).
  exists v. split; [exact Hv|].
  unfold vary_and_record. rewrite Hpool.
  subst varied merged log'.
  destruct (varAnd toolbox (random s) pool cxpb (mutpb s)) as [varied r]. simpl in *.
  rewrite Hupd, Hstats, Hv. reflexivity.
Qed.

(** An unassigned pool is the only way the body fails before the update. *)
Lemma vary_and_record_unbound (gen : Z) (ev : string) (s : State rng) :
  offspring s = None -> record_after gen ev s = Fail UnboundLocalError s.
Proof. intros H. unfold vary_and_record. now rewrite H. Qed.

End EngineFacts.

Section Invariants.

Context {rng : Type}.
Variable toolbox : Toolbox rng.
Variable cxpb : Q.
Variable save_mutpb : Q.
Variable stuck : Z * option string.
Hypothesis laws : ToolboxLaws toolbox.

Local Abbreviation f := (evaluate toolbox).
Local Abbreviation body := (generation toolbox cxpb save_mutpb stuck).
Local Abbreviation record_after := (vary_and_record toolbox cxpb).
Local Abbreviation branch := (dispatch toolbox stuck).
Local Abbreviation decayed := (decay save_mutpb).
Local Abbreviation evaluated := (evaluate_invalid toolbox).
Local Abbreviation Inv := (Inv toolbox).

Lemma decay_fields (s : State rng) :
  population (decayed s) = population s /\ offspring (decayed s) = offspring s /\
  halloffame (decayed s) = halloffame s /\ hof_size (decayed s) = hof_size s /\
  logbook (decayed s) = logbook s /\ last_min (decayed s) = last_min s /\
  random (decayed s) = random s /\
  radiation (decayed s) = Z.max (radiation s - 1) 0 /\
  (stuck_count (decayed s) = stuck_count s \/ stuck_count (decayed s) = 0).
Proof.
  unfold decay. destruct (Z.max (radiation s - 1) 0 =? 0); simpl;
    repeat split; auto.
Qed.

(** The four ways through lines 51-70. *)
Lemma dispatch_cases (s : State rng) :
  (stuck_count s <= fst stuck /\ branch s = (normal_selection toolbox s, EmptyString)) \/
  (fst stuck < stuck_count s /\ kind_is (snd stuck) Comet_Strike = true /\
   kind_is (snd stuck) Radiation_Leak = false /\
   branch s = (reset_stuck_count (comet_strike toolbox s), Comet_Strike)) \/
  (fst stuck < stuck_count s /\ kind_is (snd stuck) Comet_Strike = false /\
   kind_is (snd stuck) Radiation_Leak = true /\
   branch s = (reset_stuck_count (radiation_leak stuck s), Radiation_Leak)) \/
  (fst stuck < stuck_count s /\ kind_is (snd stuck) Comet_Strike = false /\
   kind_is (snd stuck) Radiation_Leak = false /\
   branch s = (reset_stuck_count s, EmptyString)).
Proof.
  unfold dispatch. destruct (fst stuck <? stuck_count s) eqn:E.
  - apply Z.ltb_lt in E. right.
    destruct (kind_is (snd stuck) Comet_Strike) eqn:Ec.
    + left. rewrite (kind_is_exclusive _ Ec). auto.
    + right. destruct (kind_is (snd stuck) Radiation_Leak); [left|right]; auto.
  - apply Z.ltb_ge in E. left. auto.
Qed.

Lemma In_firstn (n : nat) (l : list Individual) (x : Individual) :
  In x (firstn n l) -> In x l.
Proof.
  intros H. rewrite <- (firstn_skipn n l). apply in_or_app. now left.
Qed.

Lemma firstn_nonempty (n : nat) (l : list Individual) :
  l <> [] -> firstn (S n) l <> [].
Proof. destruct l; [contradiction|simpl; discriminate]. Qed.

(** The state the branch leaves, seen from a state between generations. *)
Lemma dispatch_mid (s : State rng) :
  Inv s -> Ctl s ->
  let s1 := fst (branch (decayed s)) in
  let ev := snd (branch (decayed s)) in
  population s1 = population s /\ logbook s1 = logbook s /\
  last_min s1 = last_min s /\ hof_size s1 = hof_size s /\
  maxsize (halloffame s1) = maxsize (halloffame s) /\
  hof_wf f (halloffame s1) /\ 0 <= stuck_count s1 /\
  (last_min s = None -> stuck_count s1 = 0) /\
  (ev <> Comet_Strike -> halloffame s1 = halloffame s) /\
  (forall pool, offspring s1 = Some pool ->
     Forall (sound f) pool /\ (pool <> [] \/ items (halloffame s1) <> [])) /\
  (offspring s1 = None -> last_min s = None /\ fst stuck < 0) /\
  (halloffame s1 = halloffame s \/ halloffame s1 = hof_clear (halloffame s)).
Proof.
  intros HI HC s1 ev.
  destruct (decay_fields s) as (Dp & Do & Dh & Dz & Dl & Dm & Dr & _ & Dc).
  assert (Hc0 : 0 <= stuck_count (decayed s)).
  { pose proof (ctl_count HC). destruct Dc as [-> | ->]; lia. }
  assert (Hfirst : last_min s = None -> stuck_count (decayed s) = 0).
  { intros E. destruct (ctl_first HC E) as [E0 _]. destruct Dc as [-> | ->]; auto. }
  assert (Hpop : population s <> []).
  { destruct (inv_record HI) as (_ & _ & _ & (i & Hi & _) & _).
    intros E. rewrite E in Hi. destruct Hi. }
  assert (Hstale : forall pool, offspring s = Some pool ->
            Forall (sound f) pool /\ (pool <> [] \/ items (halloffame s) <> [])).
  { intros pool E. split; [|right; apply (inv_hof_nonempty HI)].
    destruct (last_min s) as [v|] eqn:El.
    - destruct (ctl_later HC El) as (_ & _ & Eo).
      rewrite Eo in E. injection E as <-.
      apply consistent_sound, (inv_population HI).
    - destruct (ctl_first HC El) as (_ & Eo & _). congruence. }
  assert (Hnone : fst stuck < stuck_count (decayed s) -> offspring s = None ->
            last_min s = None /\ fst stuck < 0).
  { intros Hlt Eo. destruct (last_min s) as [v|] eqn:El.
    - destruct (ctl_later HC El) as (_ & _ & Eo'). congruence.
    - split; [reflexivity|]. rewrite (Hfirst eq_refl) in Hlt. exact Hlt. }
  subst s1 ev.
  destruct (dispatch_cases (decayed s))
    as [[Hle E] | [(Hlt & Ec & El & E) | [(Hlt & Ec & El & E) | (Hlt & Ec & El & E)]]];
    rewrite E; clear E.
  - (* normal selection *)
    unfold normal_selection. rewrite Dp, Dz, Dr.
    pose proof (select_incl laws (random s) (len (population s) - hof_size s) Hpop) as Hin.
    destruct (select toolbox (random s) (population s)
                     (len (population s) - hof_size s)) as [chosen r].
    simpl in *. rewrite ?Dh, ?Dl, ?Dm.
    repeat match goal with |- _ /\ _ => split end;
      try solve [auto | apply (inv_hof HI) | discriminate].
    intros pool E. injection E as <-.
    split; [|right; apply (inv_hof_nonempty HI)].
    pose proof (inv_population HI) as HP. rewrite Forall_forall in HP |- *.
    intros i Hi. right. apply HP, Hin, Hi.
  - (* Comet Strike *)
    unfold comet_strike. rewrite Dp, Dr.
    pose proof (creator_fresh laws (random s) (len (population s) - 3)) as Hfresh.
    destruct (populationCreator toolbox (random s) (len (population s) - 3))
      as [fresh r].
    cbn -[firstn] in *. rewrite ?Dh, ?Dz, ?Dl, ?Dm.
    repeat match goal with |- _ /\ _ => split end;
      try solve [auto | lia | constructor | discriminate | congruence
                | split; constructor].
    intros pool E. injection E as <-. split.
    + apply Forall_app. split.
      * apply Forall_forall. intros i Hi. left. now apply Hfresh.
      * pose proof (proj1 (inv_hof HI)) as HF. rewrite Forall_forall in HF |- *.
        intros i Hi. right. apply HF. apply (@In_firstn 3 (items (halloffame s)) i). exact Hi.
    + left.
      intros Happ. apply app_eq_nil in Happ. destruct Happ as [_ Happ].
      revert Happ. apply (@firstn_nonempty 2 (items (halloffame s))).
      apply (inv_hof_nonempty HI).
  - (* Radiation Leak *)
    simpl. rewrite ?Dp, ?Do, ?Dh, ?Dz, ?Dl, ?Dm.
    repeat match goal with |- _ /\ _ => split end;
      try solve [auto | lia | apply (inv_hof HI) | discriminate
                | intros; now apply Hstale | intros; now apply Hnone].
  - (* an unrecognised kind *)
    simpl. rewrite ?Dp, ?Do, ?Dh, ?Dz, ?Dl, ?Dm.
    repeat match goal with |- _ /\ _ => split end;
      try solve [auto | lia | apply (inv_hof HI) | discriminate
                | intros; now apply Hstale | intros; now apply Hnone].
Qed.

Lemma log_mono_snoc (l : list LogRecord) (r r' : LogRecord) :
  log_mono (l ++ [r]) ->
  (rec_shock_event r' <> Some Comet_Strike -> rec_min r' <= rec_min r) ->
  log_mono ((l ++ [r]) ++ [r']).
Proof.
  intros Hm Hlast pre r1 r2 post E Hs.
  destruct post as [|x post'] using rev_ind.
  - change (pre ++ [r1; r2])%list with (pre ++ [r1] ++ [r2])%list in E.
    rewrite app_assoc in E. apply app_inj_tail in E. destruct E as [E <-].
    apply app_inj_tail in E. destruct E as [_ <-]. now apply Hlast.
  - clear IHpost'. apply (Hm pre r1 r2 post'); [|assumption].
    change (pre ++ r1 :: r2 :: post' ++ [x])%list
      with (pre ++ (r1 :: r2 :: post') ++ [x])%list in E.
    rewrite app_assoc in E. apply app_inj_tail in E. now destruct E as [<- _].
Qed.

Lemma log_mono_single (r : LogRecord) : log_mono [r].
Proof.
  intros pre r1 r2 post E. apply (f_equal (@length _)) in E.
  rewrite length_app in E. simpl in E. lia.
Qed.

Lemma generation_unfold (gen : Z) (s : State rng) :
  body gen s = record_after gen (snd (branch (decayed s))) (fst (branch (decayed s))).
Proof. unfold generation. now destruct (dispatch toolbox stuck (decay save_mutpb s)). Qed.

(** One generation from a state between generations: either the pool was
    never assigned, or the body runs to its end, in a state that is again
    well formed. *)
Lemma generation_spec (gen : Z) (s : State rng) :
  Inv s -> Ctl s ->
  let s1 := fst (branch (decayed s)) in
  let ev := snd (branch (decayed s)) in
  (offspring s1 = None /\ body gen s = Fail UnboundLocalError s1) \/
  (exists pool hof' m a new_min,
     offspring s1 = Some pool /\
     let varied := fst (varAnd toolbox (random s1) pool cxpb (mutpb s1)) in
     let merged := (evaluated varied ++ items (halloffame s1))%list in
     let log' := (logbook s ++ [mkRec gen (length (invalid_ind varied)) m a
                                      (Some (radiation s1)) (Some ev)])%list in
     let s' := mkState merged (Some merged) hof' (hof_size s) log'
                       (count_stuck (last_min s) new_min (stuck_count s1))
                       (Some new_min) (mutpb s1) (radiation s1)
                       (snd (varAnd toolbox (random s1) pool cxpb (mutpb s1))) in
     hof_update (halloffame s1) merged = Ok hof' /\
     stats_compile merged = Ok (m, a) /\
     logbook_min log' = Ok new_min /\
     body gen s = (if new_min =? 0 then Break s' else Next s') /\
     Inv s' /\ (new_min <> 0 -> Ctl s') /\
     maxsize hof' = maxsize (halloffame s) /\
     (0 <= maxsize (halloffame s) ->
      hof_len (halloffame s) <= maxsize (halloffame s) ->
      hof_len (halloffame s1) <= maxsize (halloffame s) /\
      hof_len hof' <= maxsize (halloffame s))).
Proof.
  intros HI HC s1 ev. rewrite generation_unfold. fold s1 ev.
  destruct (dispatch_mid HI HC)
    as (Mp & Ml & Mm & Mz & Mx & Mwf & Mc & Mfirst & Mhof & Mpool & Mnone & Mclr).
  fold s1 ev in Mp, Ml, Mm, Mz, Mx, Mwf, Mc, Mfirst, Mhof, Mpool, Mnone, Mclr.
  destruct (offspring s1) as [pool|] eqn:Eo.
  2:{ left. split; [reflexivity|]. now apply vary_and_record_unbound. }
  right. destruct (Mpool pool eq_refl) as [Hsound Hne].
  set (varied := fst (varAnd toolbox (random s1) pool cxpb (mutpb s1))).
  set (merged := (evaluated varied ++ items (halloffame s1))%list).
  assert (Hvar : Forall (sound f) varied).
  { apply Forall_forall. intros i Hi.
    destruct (varAnd_clone laws _ _ _ _ _ Hi) as [H|H]; [now left|].
    rewrite Forall_forall in Hsound. now apply Hsound. }
  assert (Hmerged : Forall (consistent f) merged).
  { apply Forall_app. split; [now apply evaluate_invalid_consistent|apply Mwf]. }
  assert (Hmne : merged <> []).
  { intros E. apply app_eq_nil in E. destruct E as [E1 E2].
    destruct Hne as [Hne|Hne]; [|contradiction].
    apply (f_equal (@length _)) in E1.
    rewrite evaluate_invalid_length in E1. unfold varied in E1.
    rewrite (varAnd_length laws) in E1. destruct pool; [contradiction|discriminate]. }
  destruct (@hof_update_total merged (halloffame s1)) as [hof' Hupd].
  { right. rewrite Mx. apply (inv_capacity HI). }
  destruct (@stats_compile_total merged Hmne) as (m & a & Hstats).
  { eapply Forall_impl; [|exact Hmerged]. intros i. apply consistent_valid. }
  destruct (vary_and_record_ok toolbox cxpb gen ev s1 Eo Hupd Hstats)
    as (new_min & Hmin & Hrun).
  fold varied merged in Hmin, Hrun. rewrite Ml, Mz, Mm in *.
  exists pool, hof', m, a, new_min. split; [reflexivity|].
  fold varied merged. cbv zeta.
  split; [exact Hupd|]. split; [exact Hstats|]. split; [exact Hmin|].
  split; [exact Hrun|].
  destruct (hof_update_spec Mwf Hmerged Hupd)
    as (Hwf' & Hmax' & Hne' & Hcov' & _ & Hbound' & _).
  destruct (stats_compile_Ok _ Hstats) as (_ & (im & Him & Hcm) & Hleast & _).
  split; [|split; [|split]].
  4:{ intros H0 Hb.
      assert (Hb1 : hof_len (halloffame s1) <= maxsize (halloffame s)).
      { destruct Mclr as [-> | ->]; [assumption|]. unfold hof_len. simpl. lia. }
      split; [exact Hb1|]. rewrite <- Mx. apply Hbound'; rewrite Mx; assumption. }
  3:{ now rewrite Hmax'. }
  - constructor; simpl.
    + exact Hmerged.
    + exact Hwf'.
    + apply Hne'. now left.
    + rewrite Hmax', Mx. apply (inv_capacity HI).
    + exact Hcov'.
    + eexists _, _. split; [reflexivity|]. simpl. split; [eauto|exact Hleast].
    + destruct (inv_record HI) as (log & r & El & (i0 & Hi0 & Hc0) & _).
      rewrite El. apply log_mono_snoc.
      * rewrite <- El. apply (inv_mono HI).
      * simpl. intros Hev.
        assert (Hsame : halloffame s1 = halloffame s).
        { apply Mhof. intros E. apply Hev. now rewrite E. }
        destruct (inv_covers HI i0 Hi0) as (b & Hb & Hle).
        assert (Hbm : In b merged).
        { apply in_or_app. right. now rewrite Hsame. }
        specialize (Hleast b Hbm). lia.
    + intros rec Hrec. apply in_app_or in Hrec. destruct Hrec as [Hrec|[<-|[]]].
      * rewrite <- Ml in Hrec. rewrite Ml in Hrec. now apply (inv_mins HI).
      * simpl. exists (genes im). rewrite <- Hcm. apply consistent_cost.
        rewrite Forall_forall in Hmerged. now apply Hmerged.
  - intros Hnz. constructor; simpl.
    + discriminate.
    + intros v E. injection E as <-. auto.
    + unfold count_stuck. destruct (truthy (last_min s)); [|assumption].
      destruct (last_min s); [|assumption].
      destruct (new_min =? z); lia.
Qed.

Lemma hof_update_zero_capacity (pop : list Individual) :
  pop <> [] -> hof_update (mkHof 0 []) pop = Raise IndexError.
Proof. destruct pop; [contradiction|reflexivity]. Qed.

(** Generation 0 on an archive that starts empty, as [ga_solve] passes it. *)
Lemma generation0_spec (pop0 : list Individual) (K : Z) (r : rng) (s0 : State rng) :
  Forall (sound f) pop0 ->
  generation0 toolbox save_mutpb pop0 (Some (mkHof K [])) r = inr s0 ->
  Inv s0 /\ Ctl s0 /\ last_min s0 = None /\ length (logbook s0) = 1%nat /\
  population s0 = evaluated pop0 /\ maxsize (halloffame s0) = K /\
  hof_size s0 = hof_len (halloffame s0) /\
  (0 <= K -> hof_len (halloffame s0) <= K).
Proof.
  intros Hsound. unfold generation0.
  pose proof (evaluate_invalid_consistent toolbox Hsound) as Hpop.
  set (pop := evaluated pop0) in *.
  assert (Hwf0 : hof_wf f (mkHof K [])) by (split; constructor).
  destruct (hof_update (mkHof K []) pop) as [hof'|e] eqn:Hupd; [|discriminate].
  destruct (stats_compile pop) as [[m a]|e] eqn:Hstats; [|discriminate].
  intros H. injection H as <-.
  destruct (hof_update_spec Hwf0 Hpop Hupd)
    as (Hwf' & Hmax' & Hne' & Hcov' & _ & Hbound & _).
  destruct (stats_compile_Ok _ Hstats) as (Hpne & (im & Him & Hcm) & Hleast & _).
  simpl in Hmax'.
  assert (HK : K <> 0).
  { intros ->. rewrite (hof_update_zero_capacity Hpne) in Hupd. discriminate. }
  repeat split; simpl; auto; try lia; try discriminate.
  - apply Hwf'.
  - apply Hwf'.
  - eexists [], _. split; [reflexivity|]. simpl. split; [eauto|exact Hleast].
  - apply log_mono_single.
  - intros rec [<-|[]]. simpl. exists (genes im). rewrite <- Hcm.
    apply consistent_cost. rewrite Forall_forall in Hpop. now apply Hpop.
Qed.

(** A generation that falls through keeps everything the loop relies on. *)
Lemma body_Next (gen : Z) (s s' : State rng) :
  Inv s -> Ctl s -> body gen s = Next s' ->
  Inv s' /\ Ctl s' /\ last_min s' <> None /\
  maxsize (halloffame s') = maxsize (halloffame s) /\ hof_size s' = hof_size s /\
  (exists r, logbook s' = (logbook s ++ [r])%list /\ rec_gen r = gen) /\
  (0 <= maxsize (halloffame s) -> hof_len (halloffame s) <= maxsize (halloffame s) ->
   hof_len (halloffame s') <= maxsize (halloffame s)).
Proof.
  intros HI HC E.
  destruct (generation_spec gen HI HC)
    as [[_ E'] | (pool & hof' & m & a & nm & _ & _ & _ & _ & E' & HI' & HC' & Hmax & Hb)];
    cbv zeta in *; rewrite E in E'; [discriminate|].
  destruct (nm =? 0) eqn:Ez; [discriminate|]. apply Z.eqb_neq in Ez.
  injection E' as Es. subst s'. split; [exact HI'|]. split; [exact (HC' Ez)|]. simpl.
  split; [discriminate|]. split; [exact Hmax|]. split; [reflexivity|].
  split; [eexists; split; reflexivity|].
  intros H0 Hle. now apply Hb.
Qed.

Lemma after_inv (n : nat) :
  forall (gen : Z) (s s' : State rng),
  Inv s -> Ctl s -> after toolbox cxpb save_mutpb stuck n gen s = Some s' ->
  Inv s' /\ Ctl s' /\ ((0 < n)%nat -> last_min s' <> None) /\
  maxsize (halloffame s') = maxsize (halloffame s) /\ hof_size s' = hof_size s /\
  length (logbook s') = (length (logbook s) + n)%nat /\
  (0 <= maxsize (halloffame s) -> hof_len (halloffame s) <= maxsize (halloffame s) ->
   hof_len (halloffame s') <= maxsize (halloffame s)).
Proof.
  induction n as [|n IH]; intros gen s s' HI HC; simpl.
  - intros H. injection H as <-.
    split; [exact HI|]. split; [exact HC|]. repeat split; auto; lia.
  - destruct (body gen s) as [s1| |] eqn:E; try discriminate.
    intros H.
    destruct (body_Next gen HI HC E) as (HI1 & HC1 & Hl1 & Hm1 & Hz1 & (r & Hr & _) & Hb1).
    destruct (IH _ _ _ HI1 HC1 H) as (HI' & HC' & Hl' & Hm' & Hz' & Hlen' & Hb').
    split; [exact HI'|]. split; [exact HC'|]. split; [|split; [|split; [|split]]].
    + intros _. destruct n; [|apply Hl'; lia].
      simpl in H. now injection H as <-.
    + congruence.
    + congruence.
    + rewrite Hlen', Hr, length_app. simpl. lia.
    + intros H0 Hle. rewrite <- Hm1. apply Hb'; rewrite Hm1; auto.
Qed.

(** How the loop ends: it runs out of generations, or one of them breaks,
    or one of them raises. *)
Lemma loop_cases (n : nat) :
  forall (gen : Z) (s : State rng),
  let run := loop toolbox cxpb save_mutpb stuck n gen s in
  (exists s', after toolbox cxpb save_mutpb stuck n gen s = Some s' /\
              run = Returned s') \/
  (exists k s1 s', (k < n)%nat /\
     after toolbox cxpb save_mutpb stuck k gen s = Some s1 /\
     body (gen + Z.of_nat k) s1 = Break s' /\ run = Returned s') \/
  (exists k s1 e s', (k < n)%nat /\
     after toolbox cxpb save_mutpb stuck k gen s = Some s1 /\
     body (gen + Z.of_nat k) s1 = Fail e s' /\ run = raised_in e s').
Proof.
  induction n as [|n IH]; intros gen s; simpl.
  - left. eauto.
  - destruct (body gen s) as [s1|s1|e s1] eqn:E.
    + destruct (IH (gen + 1) s1)
        as [(s' & Ha & Hr) | [(k & s2 & s' & Hk & Ha & Hb & Hr)
                             | (k & s2 & e & s' & Hk & Ha & Hb & Hr)]].
      * left. eauto.
      * right. left. exists (S k), s2, s'. simpl. rewrite E.
        replace (gen + Z.pos (Pos.of_succ_nat k)) with (gen + 1 + Z.of_nat k) by lia.
        repeat split; auto; lia.
      * right. right. exists (S k), s2, e, s'. simpl. rewrite E.
        replace (gen + Z.pos (Pos.of_succ_nat k)) with (gen + 1 + Z.of_nat k) by lia.
        repeat split; auto; lia.
    + right. left. exists O, s, s1. simpl. rewrite Z.add_0_r.
      repeat split; auto; lia.
    + right. right. exists O, s, e, s1. simpl. rewrite Z.add_0_r.
      repeat split; auto; lia.
Qed.

End Invariants.

(* ------------------------------------------------------------------ *)
(** ** The concrete collaborators keep the operators' guarantees *)

Module ScenarioFacts.
Import Scenario.

Lemma select_in_turn_length r pop k :
  length (fst (select_in_turn r pop k)) = Z.to_nat k.
Proof. unfold select_in_turn. simpl. now rewrite length_map, length_seq. Qed.

Lemma select_in_turn_incl r pop k :
  pop <> [] -> incl (fst (select_in_turn r pop k)) pop.
Proof.
  intros Hne i Hi. unfold select_in_turn in Hi. simpl in Hi.
  apply in_map_iff in Hi. destruct Hi as (n & <- & _).
  apply nth_In. apply Nat.mod_upper_bound. destruct pop; [contradiction|discriminate].
Qed.

Lemma create_length r n : length (fst (create r n)) = Z.to_nat n.
Proof. unfold create. simpl. now rewrite length_map, length_seq. Qed.

Lemma create_fresh r n i : In i (fst (create r n)) -> fitness i = None.
Proof.
  unfold create. simpl. intros Hi. apply in_map_iff in Hi.
  now destruct Hi as (k & <- & _).
Qed.

Lemma vary_all_length r pool cx mu :
  length (fst (vary_all r pool cx mu)) = length pool.
Proof. unfold vary_all. simpl. now rewrite length_map, length_seq. Qed.

Lemma vary_all_clone r pool cx mu i :
  In i (fst (vary_all r pool cx mu)) -> fitness i = None \/ In i pool.
Proof.
  unfold vary_all. simpl. intros Hi. apply in_map_iff in Hi.
  destruct Hi as (k & <- & _). now left.
Qed.

Lemma laws_with (f : list Z -> Z) (vary : Z -> list Individual -> Q -> Q -> list Individual * Z) :
  (forall r pool cx mu, length (fst (vary r pool cx mu)) = length pool) ->
  (forall r pool cx mu i, In i (fst (vary r pool cx mu)) -> fitness i = None \/ In i pool) ->
  ToolboxLaws (mkToolbox f select_in_turn vary create).
Proof.
  intros Hlen Hclone. constructor; simpl.
  - intros r pop k _. exact (select_in_turn_length r pop k).
  - intros r pop k Hne. exact (@select_in_turn_incl r pop k Hne).
  - exact Hlen.
  - exact Hclone.
  - exact create_length.
  - exact create_fresh.
Qed.

Lemma flat_laws : ToolboxLaws flat.
Proof. apply laws_with; [reflexivity | intros; now right]. Qed.

Lemma five_laws : ToolboxLaws five.
Proof. apply laws_with; [reflexivity | intros; now right]. Qed.

Lemma first_gene_laws : ToolboxLaws first_gene.
Proof. apply laws_with; [apply vary_all_length | apply vary_all_clone]. Qed.

Lemma create_sound (f : list Z -> Z) r n : Forall (sound f) (fst (create r n)).
Proof. apply Forall_forall. intros i Hi. left. eapply create_fresh; eauto. Qed.

End ScenarioFacts.

(* ------------------------------------------------------------------ *)
(** ** Generation 0 goes through *)

Lemma generation0_total {rng : Type} (toolbox : Toolbox rng) (save_mutpb : Q)
  (pop0 : list Individual) (K : Z) (r : rng) :
  pop0 <> [] -> Forall (sound (evaluate toolbox)) pop0 -> K <> 0 ->
  exists s0, generation0 toolbox save_mutpb pop0 (Some (mkHof K [])) r = inr s0.
Proof.
  intros Hne Hsound HK. unfold generation0.
  pose proof (evaluate_invalid_consistent toolbox Hsound) as Hpop.
  destruct (@hof_update_total (evaluate_invalid toolbox pop0) (mkHof K []))
    as [hof' ->]; [now right|].
  destruct (@stats_compile_total (evaluate_invalid toolbox pop0)) as (m & a & ->).
  - intros E. apply (f_equal (@length _)) in E.
    rewrite evaluate_invalid_length in E. destruct pop0; [contradiction|discriminate].
  - eapply Forall_impl; [|exact Hpop]. intros i. apply consistent_valid.
  - eauto.
Qed.

(* ------------------------------------------------------------------ *)
(** ** Shock dispatch *)

(** C2, as the code has it.  When the stagnation trigger fires
    ([stuck[0] < stuck_count]) the branch runs the Comet Strike body exactly
    when the configured kind is ['Comet Strike'], the Radiation Leak body
    exactly when it is ['Radiation Leak'], never both, and for any other
    kind (the default [None], the solver's ['chernobyl']) neither: then only
    [stuck_count] is reset and [shock_event] stays empty. *)
Theorem shock_dispatch_by_kind {rng : Type} (toolbox : Toolbox rng)
  (stuck : Z * option string) (s : State rng) :
  fst stuck < stuck_count s ->
  (kind_is (snd stuck) Comet_Strike = true ->
     dispatch toolbox stuck s =
       (reset_stuck_count (comet_strike toolbox s), Comet_Strike)) /\
  (kind_is (snd stuck) Radiation_Leak = true ->
     dispatch toolbox stuck s =
       (reset_stuck_count (radiation_leak stuck s), Radiation_Leak)) /\
  (kind_is (snd stuck) Comet_Strike = false ->
   kind_is (snd stuck) Radiation_Leak = false ->
     dispatch toolbox stuck s = (reset_stuck_count s, EmptyString)) /\
  ~ (kind_is (snd stuck) Comet_Strike = true /\
     kind_is (snd stuck) Radiation_Leak = true).
Proof.
  intros Hfire.
  destruct (dispatch_cases toolbox stuck s)
    as [[Hle _] | [(_ & Ec & El & E) | [(_ & Ec & El & E) | (_ & Ec & El & E)]]];
    [lia | | |]; rewrite E, Ec, El; repeat split;
    try discriminate; try reflexivity; intros [? ?]; discriminate.
Qed.

Lemma shock_dispatch_by_kind_witness :
  let stuck := (1, Some chernobyl) in
  let s := decay (1 # 5)
             (Runs.state_at Scenario.flat (9 # 10) (1 # 5) stuck Runs.four 2 4 3) in
  fst stuck < stuck_count s /\
  dispatch Scenario.flat stuck s = (reset_stuck_count s, EmptyString).
Proof.
  intros stuck s.
  assert (Hfire : fst stuck < stuck_count s) by (vm_compute; reflexivity).
  split; [exact Hfire|].
  apply (shock_dispatch_by_kind Scenario.flat stuck s Hfire); reflexivity.
Defined.

(** C2 as stated fails in the solver's own configuration
    ([stuck=(50, 'chernobyl')]): at generation 53 of a run that never
    improves the trigger fires, and neither event is dispatched. *)
Lemma chernobyl_dispatches_nothing :
  let stuck := (50, Some chernobyl) in
  let s := decay (1 # 5)
             (Runs.state_at Scenario.flat (9 # 10) (1 # 5) stuck Runs.four 2 4 52) in
  fst stuck < stuck_count s /\
  snd (dispatch Scenario.flat stuck s) <> Comet_Strike /\
  snd (dispatch Scenario.flat stuck s) <> Radiation_Leak /\
  fst (dispatch Scenario.flat stuck s) = reset_stuck_count s.
Proof.
  intros stuck s.
  split; [vm_compute; reflexivity|].
  split; [vm_compute; discriminate|].
  split; [vm_compute; discriminate|].
  vm_compute; reflexivity.
Qed.

(* ------------------------------------------------------------------ *)
(** ** A missing archive *)

(** C4, as the code has it.  With [halloffame=None] the call raises
    [ValueError] before any archive update, any statistics record and any
    generation of the loop, but after the invalid individuals of the
    population have been evaluated in place.  An archive object that is
    merely empty is not rejected: with a non-empty population and a capacity
    other than 0, generation 0 completes. *)
Theorem missing_halloffame_raises {rng : Type} (toolbox : Toolbox rng)
  (cxpb mutpb : Q) (stuck : Z * option string) (pop0 : list Individual)
  (ngen : Z) (r : rng) :
  eaSimpleWithElitism toolbox cxpb mutpb stuck pop0 ngen None r =
    Raised ValueError (evaluate_invalid toolbox pop0) None [] /\
  (forall K, pop0 <> [] -> Forall (sound (evaluate toolbox)) pop0 -> K <> 0 ->
     exists s0,
       generation0 toolbox mutpb pop0 (Some (mkHof K [])) r = inr s0 /\
       eaSimpleWithElitism toolbox cxpb mutpb stuck pop0 ngen (Some (mkHof K [])) r =
         loop toolbox cxpb mutpb stuck (Z.to_nat ngen) 1 s0).
Proof.
  split; [reflexivity|].
  intros K Hne Hsound HK.
  destruct (generation0_total toolbox mutpb r Hne Hsound HK) as [s0 E].
  exists s0. split; [exact E|]. unfold eaSimpleWithElitism. now rewrite E.
Qed.

Lemma missing_halloffame_raises_witness :
  exists s0,
    generation0 Scenario.flat (1 # 5) Runs.four (Some (mkHof 2 [])) 4 = inr s0 /\
    eaSimpleWithElitism Scenario.flat (9 # 10) (1 # 5) (50, Some chernobyl)
                        Runs.four 3 (Some (mkHof 2 [])) 4 =
      loop Scenario.flat (9 # 10) (1 # 5) (50, Some chernobyl) (Z.to_nat 3) 1 s0.
Proof.
  apply (proj2 (missing_halloffame_raises Scenario.flat (9 # 10) (1 # 5)
                  (50, Some chernobyl) Runs.four 3 4) 2).
  - discriminate.
  - apply ScenarioFacts.create_sound.
  - discriminate.
Defined.

(** C4 as stated fails twice over: without an archive the four individuals
    have been evaluated by the time the call raises, and an empty archive
    does not make the call raise at all. *)
Lemma halloffame_check_comes_late :
  (exists pop,
     eaSimpleWithElitism Scenario.flat (9 # 10) (1 # 5) (50, Some chernobyl)
                         Runs.four 3 None 4 = Raised ValueError pop None [] /\
     map fitness Runs.four = [None; None; None; None] /\
     map fitness pop = [Some 1; Some 1; Some 1; Some 1]) /\
  (exists s,
     eaSimpleWithElitism Scenario.flat (9 # 10) (1 # 5) (50, Some chernobyl)
                         Runs.four 3 (Some (mkHof 2 [])) 4 = Returned s).
Proof.
  split.
  - eexists. split; [reflexivity|]. split; reflexivity.
  - eexists. vm_compute. reflexivity.
Qed.

(* ------------------------------------------------------------------ *)
(** ** Stagnation bookkeeping *)

Lemma logbook_min_spec (log : list LogRecord) (v : Z) :
  logbook_min log = Ok v -> In v (mins log) /\ forall x, In x (mins log) -> v <= x.
Proof.
  unfold logbook_min, mins. destruct (map rec_min log) as [|x t]; [discriminate|].
  intros H. injection H as <-. split; [apply list_min_In|].
  intros y [<-|Hy]; [apply list_min_le_init | now apply list_min_le_In].
Qed.

Section Bookkeeping.

Context {rng : Type}.
Variable toolbox : Toolbox rng.
Variable cxpb : Q.
Variable save_mutpb : Q.
Variable stuck : Z * option string.

Local Abbreviation body := (generation toolbox cxpb save_mutpb stuck).

(** What the end of the body leaves in the locals, read off the code. *)
Lemma vary_and_record_done (gen : Z) (ev : string) (s s' : State rng) :
  vary_and_record toolbox cxpb gen ev s = Next s' \/
  vary_and_record toolbox cxpb gen ev s = Break s' ->
  exists new_min r,
    logbook s' = (logbook s ++ [r])%list /\ rec_gen r = gen /\
    rec_shock_event r = Some ev /\ rec_radiation r = Some (radiation s) /\
    logbook_min (logbook s') = Ok new_min /\
    last_min s' = Some new_min /\
    stuck_count s' = count_stuck (last_min s) new_min (stuck_count s) /\
    (vary_and_record toolbox cxpb gen ev s = Break s' <-> new_min = 0).
Proof.
  unfold vary_and_record. destruct (offspring s) as [pool|].
  2:{ intros [H|H]; discriminate. }
  destruct (varAnd toolbox (random s) pool cxpb (mutpb s)) as [varied r].
  destruct (hof_update _ _) as [hof'|e]. 2:{ intros [H|H]; discriminate. }
  destruct (stats_compile _) as [[m a]|e]. 2:{ intros [H|H]; discriminate. }
  destruct (logbook_min _) as [new_min|e] eqn:Emin.
  2:{ intros [H|H]; discriminate. }
  destruct (new_min =? 0) eqn:Ez; intros [H|H]; try discriminate;
    injection H as <-; simpl; exists new_min; eexists;
    (split; [reflexivity|]); simpl; repeat split; auto; try discriminate.
  - intros _. now apply Z.eqb_eq.
  - intros ->. discriminate.
Qed.

Lemma decay_dispatch_counting (s : State rng) :
  let s1 := fst (dispatch toolbox stuck (decay save_mutpb s)) in
  last_min s1 = last_min s /\ logbook s1 = logbook s /\
  (stuck_count s = 0 -> stuck_count s1 = 0).
Proof.
  destruct (decay_fields save_mutpb s) as (_ & _ & _ & _ & Dl & Dm & _ & _ & Dc).
  destruct (dispatch_cases toolbox stuck (decay save_mutpb s))
    as [[_ E] | [(_ & _ & _ & E) | [(_ & _ & _ & E) | (_ & _ & _ & E)]]];
    cbv zeta; rewrite E; clear E.
  - unfold normal_selection. destruct (select _ _ _ _). simpl.
    rewrite Dl, Dm. repeat split. intros E0. destruct Dc as [-> | ->]; auto.
  - unfold comet_strike. destruct (populationCreator _ _ _). simpl.
    rewrite Dl, Dm. auto.
  - simpl. rewrite Dl, Dm. auto.
  - simpl. rewrite Dl, Dm. auto.
Qed.

Lemma body_counting (gen : Z) (s s' : State rng) :
  Counting s -> body gen s = Next s' -> Counting s'.
Proof.
  intros HC E. rewrite generation_unfold in E.
  destruct (vary_and_record_done _ _ _ (or_introl E))
    as (nm & r & _ & _ & _ & _ & _ & El & _ & Hbreak).
  constructor.
  - rewrite El. discriminate.
  - intros v Ev. rewrite El in Ev. injection Ev as <-.
    intros ->. destruct Hbreak as [_ Hb]. rewrite E in Hb.
    specialize (Hb eq_refl). discriminate.
Qed.

Lemma after_counting (n : nat) :
  forall (gen : Z) (s s' : State rng),
  Counting s -> after toolbox cxpb save_mutpb stuck n gen s = Some s' -> Counting s'.
Proof.
  induction n as [|n IH]; intros gen s s' HC; simpl.
  - intros H. now injection H as <-.
  - destruct (body gen s) as [s1| |] eqn:E; try discriminate.
    apply IH. eapply body_counting; eauto.
Qed.

Lemma reached_counting pop0 K r n s :
  reached toolbox cxpb save_mutpb stuck pop0 K r n s -> Counting s.
Proof.
  intros (s0 & E0 & Ha). apply (@after_counting n 1 s0 s); [|exact Ha].
  unfold generation0 in E0.
  destruct (hof_update _ _) as [h1|]; [|discriminate].
  destruct (stats_compile _) as [[m a]|]; [|discriminate].
  injection E0 as <-. constructor; simpl; [reflexivity|discriminate].
Qed.

(** C6.  At the end of every generation [n + 1 >= 1] that completes,
    [new_min] is the minimum of the whole [min] column of the logbook, the
    record of this generation included; [stuck_count] becomes its value
    after the branch plus one when [last_min] was set and equals [new_min],
    and 0 otherwise, the first comparison included; [last_min] becomes
    [new_min]. *)
Theorem stagnation_bookkeeping pop0 K r n s s' :
  reached toolbox cxpb save_mutpb stuck pop0 K r n s ->
  body (Z.of_nat n + 1) s = Next s' \/ body (Z.of_nat n + 1) s = Break s' ->
  let s1 := fst (dispatch toolbox stuck (decay save_mutpb s)) in
  exists new_min rec,
    logbook s' = (logbook s ++ [rec])%list /\
    In new_min (mins (logbook s')) /\
    (forall x, In x (mins (logbook s')) -> new_min <= x) /\
    stuck_count s' =
      match last_min s with
      | Some lm => if new_min =? lm then stuck_count s1 + 1 else 0
      | None => 0
      end /\
    last_min s' = Some new_min.
Proof.
  intros Hreach Hdone s1.
  pose proof (reached_counting Hreach) as HC.
  rewrite !generation_unfold in Hdone. fold s1 in Hdone.
  destruct (vary_and_record_done _ _ _ Hdone)
    as (nm & rec & Hlog & _ & _ & _ & Hmin & Hlast & Hcount & _).
  destruct (decay_dispatch_counting s) as (Hlm & Hl & H0). fold s1 in Hlm, Hl, H0.
  destruct (logbook_min_spec _ Hmin) as [Hin Hle].
  exists nm, rec. rewrite <- Hl. split; [exact Hlog|].
  split; [exact Hin|]. split; [exact Hle|]. split; [|exact Hlast].
  rewrite Hcount, Hlm. unfold count_stuck, truthy.
  destruct (last_min s) as [lm|] eqn:El.
  - rewrite (proj2 (Z.eqb_neq lm 0) (counting_later HC El)). reflexivity.
  - apply H0, (counting_first HC El).
Qed.

End Bookkeeping.

Lemma stagnation_bookkeeping_witness :
  exists new_min rec,
    logbook (Runs.leak_at 3) = (logbook (Runs.leak_at 2) ++ [rec])%list /\
    In new_min (mins (logbook (Runs.leak_at 3))) /\
    (forall x, In x (mins (logbook (Runs.leak_at 3))) -> new_min <= x) /\
    stuck_count (Runs.leak_at 3) = 2 /\
    last_min (Runs.leak_at 3) = Some new_min.
Proof.
  assert (Hreach : reached Scenario.flat (9 # 10) (1 # 5) (1, Some Radiation_Leak)
                     Runs.four 2 4 2 (Runs.leak_at 2)).
  { eexists. split; vm_compute; reflexivity. }
  assert (Hnext : generation Scenario.flat (9 # 10) (1 # 5) (1, Some Radiation_Leak)
                    (Z.of_nat 2 + 1) (Runs.leak_at 2) = Next (Runs.leak_at 3)).
  { vm_compute; reflexivity. }
  destruct (stagnation_bookkeeping Hreach (or_introl Hnext))
    as (new_min & rec & Hlog & Hin & Hle & Hcount & Hlast).
  exists new_min, rec. split; [exact Hlog|]. split; [exact Hin|].
  split; [exact Hle|]. split; [|exact Hlast].
  vm_compute; reflexivity.
Defined.

(* ------------------------------------------------------------------ *)
(** ** The pool of a shock generation *)

Section Pools.

Context {rng : Type}.
Variable toolbox : Toolbox rng.
Variable cxpb : Q.
Variable save_mutpb : Q.
Variable stuck : Z * option string.
Hypothesis laws : ToolboxLaws toolbox.

Local Abbreviation f := (evaluate toolbox).
Local Abbreviation body := (generation toolbox cxpb save_mutpb stuck).
Local Abbreviation branch := (dispatch toolbox stuck).
Local Abbreviation decayed := (decay save_mutpb).
Local Abbreviation evaluated := (evaluate_invalid toolbox).
Local Abbreviation reached := (reached toolbox cxpb save_mutpb stuck).

Lemma reached_inv pop0 K r n s :
  Forall (sound f) pop0 -> reached pop0 K r n s ->
  Inv toolbox s /\ Ctl s /\ ((0 < n)%nat -> last_min s <> None) /\
  maxsize (halloffame s) = K /\ length (logbook s) = S n /\
  (0 <= K -> hof_len (halloffame s) <= K).
Proof.
  intros Hsound (s0 & E0 & Ha).
  destruct (generation0_spec toolbox save_mutpb K r Hsound E0)
    as (HI0 & HC0 & _ & Hlen0 & _ & Hmax0 & _ & Hb0).
  destruct (after_inv cxpb save_mutpb stuck laws n 1 HI0 HC0 Ha)
    as (HI & HC & Hl & Hmax & _ & Hlen & Hb).
  split; [exact HI|]. split; [exact HC|]. split; [exact Hl|].
  split; [congruence|]. split; [lia|].
  intros H0. rewrite Hmax0 in Hb. apply Hb; auto.
Qed.

(** The branch when the trigger fires and the kind is not ['Comet Strike']:
    nothing is selected, only the mutation rate and the countdown may
    change. *)
Lemma dispatch_stale (x : State rng) :
  fst stuck < stuck_count x -> kind_is (snd stuck) Comet_Strike = false ->
  let s1 := fst (branch x) in
  offspring s1 = offspring x /\ halloffame s1 = halloffame x /\
  random s1 = random x /\ population s1 = population x /\
  mutpb s1 = (if kind_is (snd stuck) Radiation_Leak then 1 # 2 else mutpb x).
Proof.
  intros Hfire Hc.
  destruct (dispatch_cases toolbox stuck x)
    as [[Hle _] | [(_ & Ec & _) | [(_ & _ & El & E) | (_ & _ & El & E)]]];
    [lia | congruence | |]; cbv zeta; rewrite E, El; simpl; auto.
Qed.

(** C9, as the code has it.  In generation 2 and in every later one (the
    generation before has left its [offspring] list), when the trigger
    fires and the kind is not ['Comet Strike'] (so also for
    ['Radiation Leak'] and ['chernobyl']), the selection operator is not
    called: the pool is the list [offspring] left by the previous
    generation, whose contents are the current population; it is varied,
    evaluated and extended with the archive, so the population grows by the
    number of archived members. *)
Theorem stale_pool_reused pop0 K r n s :
  Forall (sound f) pop0 -> reached pop0 K r n s -> (1 <= n)%nat ->
  fst stuck < stuck_count (decayed s) ->
  kind_is (snd stuck) Comet_Strike = false ->
  let mutpb1 := mutpb (fst (branch (decayed s))) in
  let varied := varAnd toolbox (random s) (population s) cxpb mutpb1 in
  exists s',
    (body (Z.of_nat n + 1) s = Next s' \/ body (Z.of_nat n + 1) s = Break s') /\
    offspring s = Some (population s) /\
    population s' = (evaluated (fst varied) ++ items (halloffame s))%list /\
    random s' = snd varied /\
    len (population s') = len (population s) + hof_len (halloffame s).
Proof.
  intros Hsound Hreach Hn Hfire Hc mutpb1 varied.
  destruct (reached_inv Hsound Hreach) as (HI & HC & Hl & _).
  destruct (last_min s) as [lm|] eqn:El; [|exfalso; apply Hl; [lia|reflexivity]].
  destruct (ctl_later HC El) as (_ & _ & Eo).
  destruct (decay_fields save_mutpb s) as (Dp & Do & Dh & _ & _ & _ & Dr & _).
  destruct (dispatch_stale (decayed s) Hfire Hc) as (So & Sh & Sr & Sp & _).
  rewrite Do, Eo in So. rewrite Dh in Sh. rewrite Dr in Sr.
  destruct (generation_spec cxpb save_mutpb stuck laws (Z.of_nat n + 1) HI HC)
    as [[Enone _] | (pool & hof' & m & a & nm & Epool & _ & _ & _ & E & _)].
  { rewrite So in Enone. discriminate. }
  rewrite So in Epool. injection Epool as <-.
  cbv zeta in E. rewrite Sh, Sr in E. fold mutpb1 in E. fold varied in E.
  eexists. split.
  - destruct (nm =? 0); [right|left]; exact E.
  - split; [exact Eo|]. simpl. split; [reflexivity|]. split; [reflexivity|].
    unfold len, hof_len. rewrite length_app, evaluate_invalid_length.
    unfold varied. rewrite (varAnd_length laws). lia.
Qed.

(** C10, as the code has it.  A Comet Strike builds the pool from
    [max(len(population) - 3, 0)] freshly created individuals followed by
    the first [min(3, len(archive))] archived members, with the literal 3,
    and empties the archive, so nothing is added back after variation: the
    population of that generation has exactly that many members.  If the
    archive holds fewer than 3 entries and the population at least 3, the
    population of that generation is shorter than the one before. *)
Theorem comet_strike_pool pop0 K r n s :
  Forall (sound f) pop0 -> reached pop0 K r n s ->
  fst stuck < stuck_count (decayed s) ->
  kind_is (snd stuck) Comet_Strike = true ->
  let created := populationCreator toolbox (random s) (len (population s) - 3) in
  let pool := (fst created ++ firstn 3 (items (halloffame s)))%list in
  let s1 := fst (branch (decayed s)) in
  offspring s1 = Some pool /\ items (halloffame s1) = [] /\
  len (fst created) = Z.max (len (population s) - 3) 0 /\
  len (firstn 3 (items (halloffame s))) = Z.min 3 (hof_len (halloffame s)) /\
  exists s',
    (body (Z.of_nat n + 1) s = Next s' \/ body (Z.of_nat n + 1) s = Break s') /\
    population s' = evaluated (fst (varAnd toolbox (snd created) pool cxpb (mutpb s1))) /\
    len (population s') =
      Z.max (len (population s) - 3) 0 + Z.min 3 (hof_len (halloffame s)) /\
    (hof_len (halloffame s) < 3 -> 3 <= len (population s) ->
     len (population s') < len (population s)).
Proof.
  intros Hsound Hreach Hfire Hc created pool s1.
  destruct (reached_inv Hsound Hreach) as (HI & HC & _).
  destruct (decay_fields save_mutpb s) as (Dp & Do & Dh & _ & _ & _ & Dr & _).
  assert (Hcreated : len (fst created) = Z.max (len (population s) - 3) 0).
  { unfold len at 1. unfold created. rewrite (creator_length laws). lia. }
  assert (Hkept : len (firstn 3 (items (halloffame s))) = Z.min 3 (hof_len (halloffame s))).
  { unfold len, hof_len. rewrite length_firstn. lia. }
  assert (Hs1 : offspring s1 = Some pool /\ items (halloffame s1) = [] /\
                random s1 = snd created).
  { subst s1.
    destruct (dispatch_cases toolbox stuck (decayed s))
      as [[Hle _] | [(_ & _ & _ & E) | [(_ & Ec & _) | (_ & Ec & _)]]];
      [lia | | congruence | congruence].
    rewrite E. unfold comet_strike. rewrite Dp, Dh, Dr. fold created.
    destruct created as [fresh r1]. simpl. auto. }
  destruct Hs1 as (So & Sh & Sr).
  split; [exact So|]. split; [exact Sh|]. split; [exact Hcreated|].
  split; [exact Hkept|].
  destruct (generation_spec cxpb save_mutpb stuck laws (Z.of_nat n + 1) HI HC)
    as [[Enone _] | (pool' & hof' & m & a & nm & Epool & _ & _ & _ & E & _)].
  { fold s1 in Enone. rewrite So in Enone. discriminate. }
  fold s1 in Epool, E. rewrite So in Epool. injection Epool as <-.
  cbv zeta in E. rewrite Sh, Sr, app_nil_r in E.
  assert (Hlen : len (evaluated (fst (varAnd toolbox (snd created) pool cxpb (mutpb s1)))) =
                 Z.max (len (population s) - 3) 0 + Z.min 3 (hof_len (halloffame s))).
  { unfold len at 1. rewrite evaluate_invalid_length, (varAnd_length laws).
    unfold pool. rewrite length_app, Nat2Z.inj_add.
    change (len (fst created) + len (firstn 3 (items (halloffame s))) =
            Z.max (len (population s) - 3) 0 + Z.min 3 (hof_len (halloffame s))).
    now rewrite Hcreated, Hkept. }
  eexists. split.
  - destruct (nm =? 0); [right|left]; exact E.
  - simpl. split; [reflexivity|]. split; [exact Hlen|].
    intros Hfew Hpop. rewrite Hlen. lia.
Qed.

(** What the selection branch does keep: when the trigger does not fire and
    the archive still has the length it had after generation 0, a generation
    ends with as many individuals as it began with. *)
Lemma normal_generation_keeps_size pop0 K r n s :
  Forall (sound f) pop0 -> reached pop0 K r n s ->
  stuck_count (decayed s) <= fst stuck ->
  hof_len (halloffame s) = hof_size s -> hof_size s <= len (population s) ->
  exists s',
    (body (Z.of_nat n + 1) s = Next s' \/ body (Z.of_nat n + 1) s = Break s') /\
    len (population s') = len (population s).
Proof.
  intros Hsound Hreach Hquiet Hsame Hfits.
  destruct (reached_inv Hsound Hreach) as (HI & HC & _).
  destruct (decay_fields save_mutpb s) as (Dp & _ & Dh & Dz & _ & _ & Dr & _).
  assert (Hpop : population s <> []).
  { destruct (inv_record HI) as (_ & _ & _ & (i & Hi & _) & _).
    intros E. rewrite E in Hi. destruct Hi. }
  assert (Hs1 : exists chosen,
            offspring (fst (branch (decayed s))) = Some chosen /\
            length chosen = Z.to_nat (len (population s) - hof_size s) /\
            halloffame (fst (branch (decayed s))) = halloffame s).
  { destruct (dispatch_cases toolbox stuck (decayed s))
      as [[_ E] | [(Hlt & _) | [(Hlt & _) | (Hlt & _)]]]; [|lia|lia|lia].
    rewrite E. unfold normal_selection. rewrite Dp, Dz, Dr, Dh.
    pose proof (select_length laws (random s) (len (population s) - hof_size s) Hpop) as Hl.
    destruct (select toolbox (random s) (population s)
                (len (population s) - hof_size s)) as [chosen r1].
    simpl in *. eauto. }
  destruct Hs1 as (chosen & So & Hlen & Sh).
  destruct (generation_spec cxpb save_mutpb stuck laws (Z.of_nat n + 1) HI HC)
    as [[Enone _] | (pool & hof' & m & a & nm & Epool & _ & _ & _ & E & _)].
  { rewrite So in Enone. discriminate. }
  rewrite So in Epool. injection Epool as <-.
  cbv zeta in E. rewrite Sh in E.
  eexists. split.
  - destruct (nm =? 0); [right|left]; exact E.
  - simpl. unfold len at 1. rewrite length_app, evaluate_invalid_length.
    rewrite (varAnd_length laws), Hlen. unfold hof_len in Hsame. lia.
Qed.

End Pools.

Lemma stale_pool_reused_witness :
  exists s',
    (generation Scenario.flat (9 # 10) (1 # 5) (1, Some Radiation_Leak) 4
                (Runs.leak_at 3) = Next s' \/
     generation Scenario.flat (9 # 10) (1 # 5) (1, Some Radiation_Leak) 4
                (Runs.leak_at 3) = Break s') /\
    len (population (Runs.leak_at 3)) = 4 /\
    len (population s') = 4 + 2.
Proof.
  assert (Hreach : reached Scenario.flat (9 # 10) (1 # 5) (1, Some Radiation_Leak)
                     Runs.four 2 4 3 (Runs.leak_at 3)).
  { eexists. split; vm_compute; reflexivity. }
  destruct (@stale_pool_reused Z Scenario.flat (9 # 10) (1 # 5)
              (1, Some Radiation_Leak) ScenarioFacts.flat_laws
              Runs.four 2 4 3 (Runs.leak_at 3))
    as (s' & Hstep & _ & _ & _ & Hlen).
  - apply ScenarioFacts.create_sound.
  - exact Hreach.
  - repeat constructor.
  - vm_compute; reflexivity.
  - reflexivity.
  - exists s'. split; [exact Hstep|]. split; [vm_compute; reflexivity|].
    rewrite Hlen. vm_compute; reflexivity.
Defined.

(** C9 as stated fails in generation 1, the one generation with no
    previous [offspring] list.  With the threshold -1 and the kind
    ['Radiation Leak'] the trigger fires there ([-1 < 0]), no pool is
    selected and none is left to reuse: [varAnd] is never reached, the call
    raises [UnboundLocalError] and the population keeps the 4 members of
    generation 0 instead of growing by the 2 archived ones. *)
Lemma first_generation_has_no_stale_pool :
  exists s0,
    generation0 Scenario.flat (1 # 5) Runs.four (Some (mkHof 2 [])) 4 = inr s0 /\
    -1 < stuck_count (decay (1 # 5) s0) /\
    kind_is (Some Radiation_Leak) Comet_Strike = false /\
    offspring s0 = None /\
    offspring (fst (dispatch Scenario.flat (-1, Some Radiation_Leak)
                             (decay (1 # 5) s0))) = None /\
    len (population s0) = 4 /\ hof_len (halloffame s0) = 2 /\
    eaSimpleWithElitism Scenario.flat (9 # 10) (1 # 5) (-1, Some Radiation_Leak)
                        Runs.four 8 (Some (mkHof 2 [])) 4 =
      Raised UnboundLocalError (population s0) (Some (halloffame s0)) (logbook s0).
Proof.
  eexists. split; [vm_compute; reflexivity|].
  repeat split; vm_compute; reflexivity.
Qed.

Lemma comet_strike_pool_witness :
  exists s',
    (generation Scenario.flat (9 # 10) (1 # 5) (1, Some Comet_Strike) 4
                (Runs.strike_at 3) = Next s' \/
     generation Scenario.flat (9 # 10) (1 # 5) (1, Some Comet_Strike) 4
                (Runs.strike_at 3) = Break s') /\
    len (population (Runs.strike_at 3)) = 5 /\
    hof_len (halloffame (Runs.strike_at 3)) = 1 /\
    len (population s') = 2 + 1.
Proof.
  assert (Hreach : reached Scenario.flat (9 # 10) (1 # 5) (1, Some Comet_Strike)
                     Runs.clones 3 100 3 (Runs.strike_at 3)).
  { eexists. split; vm_compute; reflexivity. }
  destruct (@comet_strike_pool Z Scenario.flat (9 # 10) (1 # 5)
              (1, Some Comet_Strike) ScenarioFacts.flat_laws
              Runs.clones 3 100 3 (Runs.strike_at 3))
    as (_ & _ & _ & _ & s' & Hstep & _ & Hlen & _).
  - repeat constructor.
  - exact Hreach.
  - vm_compute; reflexivity.
  - reflexivity.
  - exists s'. split; [exact Hstep|]. split; [vm_compute; reflexivity|].
    split; [vm_compute; reflexivity|].
    rewrite Hlen. vm_compute; reflexivity.
Defined.

(** C10 as stated fails in its last part: the shrinking need not last.  Five
    copies of one individual leave an archive of one; the strike of
    generation 4 cuts the population to 3, the rebuilt archive then holds 3
    members while [hof_size] is still 1, and generation 5 is back at 5,
    generation 7 at 7. *)
Lemma comet_shrink_is_not_permanent :
  hof_len (halloffame (Runs.strike_at 3)) = 1 /\
  map rec_shock_event (logbook (Runs.strike_at 4)) =
    [None; Some EmptyString; Some EmptyString; Some EmptyString; Some Comet_Strike] /\
  len (population (Runs.strike_at 3)) = 5 /\
  len (population (Runs.strike_at 4)) = 3 /\
  len (population (Runs.strike_at 5)) = 5 /\
  len (population (Runs.strike_at 7)) = 7.
Proof. repeat split; vm_compute; reflexivity. Qed.

(* ------------------------------------------------------------------ *)
(** ** The bound on the archive *)

(** One candidate never takes the archive past its capacity and never
    leaves it empty; no assumption on the individuals. *)
Lemma hof_update_one_len (first ind : Individual) (h h' : HallOfFame) :
  hof_update_one first h ind = Ok h' ->
  maxsize h' = maxsize h /\ items h' <> [] /\
  (0 <= maxsize h -> hof_len h <= maxsize h -> hof_len h' <= maxsize h).
Proof.
  unfold hof_update_one.
  assert (Hins : forall l x, hof_len (mkHof (maxsize h) (insert_sorted x l)) =
                             Z.of_nat (length l) + 1).
  { intros l x. unfold hof_len. simpl. rewrite insert_sorted_length. lia. }
  assert (Hne : forall l x, insert_sorted x l <> []).
  { intros l x E. apply (f_equal (@length _)) in E.
    rewrite insert_sorted_length in E. discriminate. }
  destruct ((hof_len h =? 0) && negb (maxsize h =? 0)) eqn:E0.
  - apply andb_true_iff in E0. destruct E0 as [El Em].
    apply Z.eqb_eq in El. apply negb_true_iff, Z.eqb_neq in Em.
    intros H. injection H as <-. unfold hof_insert.
    split; [reflexivity|]. split; [apply Hne|].
    intros H0 _. rewrite Hins. unfold hof_len in El. lia.
  - destruct (rev (items h)) as [|worst rest] eqn:Er; [discriminate|].
    apply rev_worst in Er.
    assert (Hlen : length (items h) = S (length (removelast (items h)))).
    { rewrite Er at 1. rewrite length_app. simpl. lia. }
    assert (Hnonempty : items h <> []).
    { intros E. rewrite E in Hlen. discriminate. }
    destruct (fitness_gt ind worst || (hof_len h <? maxsize h)).
    + destruct (existsb (np_equal ind) (items h)).
      * intros H. injection H as <-. auto.
      * destruct (maxsize h <=? hof_len h) eqn:Efull; intros H; injection H as <-;
          unfold hof_insert, hof_remove_last; simpl;
          (split; [reflexivity|]); (split; [apply Hne|]); intros H0 Hb; rewrite Hins.
        -- unfold hof_len in Hb. lia.
        -- apply Z.leb_gt in Efull. unfold hof_len in Efull. lia.
    + intros H. injection H as <-. auto.
Qed.

Lemma hof_update_from_len (first : Individual) (l : list Individual) :
  forall (h h' : HallOfFame),
  hof_update_from first h l = Ok h' ->
  maxsize h' = maxsize h /\ (l <> [] \/ items h <> [] -> items h' <> []) /\
  (0 <= maxsize h -> hof_len h <= maxsize h -> hof_len h' <= maxsize h).
Proof.
  induction l as [|ind l IH]; intros h h'; simpl.
  - intros H. injection H as <-. repeat split; auto. intros [H|H]; auto.
  - destruct (hof_update_one first h ind) as [h1|] eqn:E1; simpl; [|discriminate].
    intros H. destruct (hof_update_one_len _ _ _ E1) as (Hm1 & Hne1 & Hb1).
    destruct (IH h1 h' H) as (Hm & Hne & Hb).
    split; [congruence|]. split; [intros _; apply Hne; now right|].
    intros H0 Hle. rewrite <- Hm1. apply Hb; rewrite Hm1; auto.
Qed.

Lemma hof_update_len (pop : list Individual) (h h' : HallOfFame) :
  hof_update h pop = Ok h' ->
  maxsize h' = maxsize h /\ (pop <> [] \/ items h <> [] -> items h' <> []) /\
  (0 <= maxsize h -> hof_len h <= maxsize h -> hof_len h' <= maxsize h).
Proof.
  unfold hof_update. destruct pop as [|first t].
  - intros H. injection H as <-. repeat split; auto. intros [H|H]; auto.
  - apply hof_update_from_len.
Qed.

Section Archive.

Context {rng : Type}.
Variable toolbox : Toolbox rng.
Variable cxpb : Q.
Variable save_mutpb : Q.
Variable stuck : Z * option string.

Local Abbreviation body := (generation toolbox cxpb save_mutpb stuck).
Local Abbreviation branch := (dispatch toolbox stuck).
Local Abbreviation decayed := (decay save_mutpb).

(** The archive at the end of the body: the updated one, or the one the
    branch left when the body raised before the update was done. *)
Lemma vary_and_record_archive (gen : Z) (ev : string) (s : State rng) :
  let st := vary_and_record toolbox cxpb gen ev s in
  (exists merged,
     hof_update (halloffame s) merged = Ok (halloffame (step_state st)) /\
     match st with Fail _ _ => True | _ => merged <> [] end) \/
  (halloffame (step_state st) = halloffame s /\ exists e x, st = Fail e x).
Proof.
  unfold vary_and_record. destruct (offspring s) as [pool|]; [|right; simpl; eauto].
  destruct (varAnd toolbox (random s) pool cxpb (mutpb s)) as [varied r].
  destruct (hof_update _ _) as [hof'|e] eqn:Hupd; [|right; simpl; eauto].
  destruct (stats_compile _) as [[m a]|e] eqn:Hstats; [|left; simpl; eauto].
  apply stats_compile_Ok in Hstats. destruct Hstats as [Hne _].
  destruct (logbook_min _) as [new_min|e]; [|left; simpl; eauto].
  destruct (new_min =? 0); left; simpl; eauto.
Qed.

(** The archive after the branch: untouched, or cleared by a strike. *)
Lemma dispatch_archive (x : State rng) :
  let s1 := fst (branch x) in
  maxsize (halloffame s1) = maxsize (halloffame x) /\
  (halloffame s1 = halloffame x \/
   items (halloffame s1) = [] /\ snd (branch x) = Comet_Strike).
Proof.
  destruct (dispatch_cases toolbox stuck x)
    as [[_ E] | [(_ & _ & _ & E) | [(_ & _ & _ & E) | (_ & _ & _ & E)]]];
    cbv zeta; rewrite E; clear E.
  - unfold normal_selection. destruct (select _ _ _ _). simpl. auto.
  - unfold comet_strike. destruct (populationCreator _ _ _). simpl. auto.
  - simpl. auto.
  - simpl. auto.
Qed.

Lemma hof_len_pos (h : HallOfFame) : items h <> [] -> 1 <= hof_len h.
Proof. unfold hof_len. destruct (items h); [contradiction|simpl; lia]. Qed.

Lemma body_filled (K : Z) (gen : Z) (s : State rng) :
  0 <= K -> filled K (halloffame s) ->
  let s1 := fst (branch (decayed s)) in
  let st := body gen s in
  hof_len (halloffame s1) <= K /\
  (items (halloffame s1) = [] -> snd (branch (decayed s)) = Comet_Strike) /\
  maxsize (halloffame (step_state st)) = K /\
  hof_len (halloffame (step_state st)) <= K /\
  match st with Fail _ _ => True | _ => filled K (halloffame (step_state st)) end.
Proof.
  intros HK (Hmax & Hlo & Hhi) s1 st.
  destruct (decay_fields save_mutpb s) as (_ & _ & Dh & _).
  destruct (dispatch_archive (decayed s)) as (Hm1 & Hh1). fold s1 in Hm1, Hh1.
  rewrite Dh in Hm1, Hh1.
  assert (Hb1 : hof_len (halloffame s1) <= K).
  { destruct Hh1 as [-> | [E _]]; [assumption|]. unfold hof_len. rewrite E. simpl. lia. }
  split; [exact Hb1|]. split.
  { intros E. destruct Hh1 as [Hsame | [_ Hev]]; [|exact Hev].
    rewrite Hsame in E. unfold hof_len in Hlo. rewrite E in Hlo. simpl in Hlo. lia. }
  subst st. rewrite generation_unfold. fold s1.
  destruct (vary_and_record_archive gen (snd (branch (decayed s))) s1)
    as [(merged & Hupd & Hne) | (Hsame & e & x & E)].
  - destruct (hof_update_len _ _ Hupd) as (Hm & Hnonempty & Hb).
    rewrite Hm1, Hmax in Hm, Hb. specialize (Hb HK Hb1).
    split; [exact Hm|]. split; [exact Hb|].
    destruct (vary_and_record toolbox cxpb gen _ s1); auto;
      (split; [exact Hm|]); (split; [|exact Hb]);
      apply hof_len_pos, Hnonempty; now left.
  - rewrite E in *. simpl in *. rewrite Hsame. rewrite Hm1, Hmax. auto.
Qed.

(** C7.  At the end of generation 0 and of every later generation the
    archive holds at least one and at most [hall_of_fame_size] entries; so
    it does after the branch of the next generation, except that a Comet
    Strike has then emptied it; and so it does where the body of that
    generation ends, refilled by the update of the same generation when the
    body completes (falls through or breaks). *)
Theorem halloffame_bounded pop0 K r n s :
  0 <= K -> reached toolbox cxpb save_mutpb stuck pop0 K r n s ->
  let s1 := fst (branch (decayed s)) in
  let st := body (Z.of_nat n + 1) s in
  filled K (halloffame s) /\
  hof_len (halloffame s1) <= K /\
  (items (halloffame s1) = [] -> snd (branch (decayed s)) = Comet_Strike) /\
  hof_len (halloffame (step_state st)) <= K /\
  match st with Fail _ _ => True | _ => filled K (halloffame (step_state st)) end.
Proof.
  intros HK (s0 & E0 & Ha) s1 st.
  assert (H0 : filled K (halloffame s0)).
  { unfold generation0 in E0.
    destruct (hof_update _ _) as [hof'|] eqn:Hupd; [|discriminate].
    destruct (stats_compile _) as [[m a]|] eqn:Hstats; [|discriminate].
    injection E0 as <-. simpl.
    apply stats_compile_Ok in Hstats. destruct Hstats as [Hne _].
    destruct (hof_update_len _ _ Hupd) as (Hm & Hnonempty & Hb). simpl in Hm, Hb.
    split; [exact Hm|]. split; [apply hof_len_pos, Hnonempty; now left|].
    apply Hb; [exact HK|]. unfold hof_len. simpl. exact HK. }
  assert (Hs : filled K (halloffame s)).
  { clear st s1 E0. revert Ha H0. generalize 1 as gen. revert s0.
    induction n as [|n IH]; intros s0 gen; simpl.
    - intros H. now injection H as <-.
    - intros H Hf. pose proof (body_filled gen s0 HK Hf) as (_ & _ & _ & _ & Hnext).
      destruct (body gen s0) as [s'| |]; try discriminate.
      simpl in Hnext. now apply (IH s' (gen + 1)). }
  split; [exact Hs|].
  destruct (body_filled (Z.of_nat n + 1) s HK Hs) as (H1 & H2 & _ & H3 & H4).
  auto.
Qed.

End Archive.

Lemma halloffame_bounded_witness :
  (1 <= hof_len (halloffame (Runs.strike_at 3)) <= 3) /\
  items (halloffame (fst (dispatch Scenario.flat (1, Some Comet_Strike)
                                   (decay (1 # 5) (Runs.strike_at 3))))) = [] /\
  (1 <= hof_len (halloffame (Runs.strike_at 4)) <= 3).
Proof.
  assert (Hreach : reached Scenario.flat (9 # 10) (1 # 5) (1, Some Comet_Strike)
                     Runs.clones 3 100 3 (Runs.strike_at 3)).
  { eexists. split; vm_compute; reflexivity. }
  assert (Hnext : generation Scenario.flat (9 # 10) (1 # 5) (1, Some Comet_Strike)
                    (Z.of_nat 3 + 1) (Runs.strike_at 3) = Next (Runs.strike_at 4)).
  { vm_compute; reflexivity. }
  assert (HK : 0 <= 3) by discriminate.
  destruct (halloffame_bounded HK Hreach) as ((_ & Hs) & _ & _ & _ & Hend).
  rewrite Hnext in Hend. destruct Hend as (_ & Hs').
  split; [exact Hs|]. split; [vm_compute; reflexivity|exact Hs'].
Defined.

(* ------------------------------------------------------------------ *)
(** ** Whole runs *)

Section WholeRuns.

Context {rng : Type}.
Variable toolbox : Toolbox rng.
Variable cxpb : Q.
Variable save_mutpb : Q.
Variable stuck : Z * option string.
Hypothesis laws : ToolboxLaws toolbox.

Local Abbreviation f := (evaluate toolbox).
Local Abbreviation body := (generation toolbox cxpb save_mutpb stuck).
Local Abbreviation branch := (dispatch toolbox stuck).
Local Abbreviation decayed := (decay save_mutpb).
Local Abbreviation ea := (eaSimpleWithElitism toolbox cxpb save_mutpb stuck).

(** The three ways the body ends from a state between generations. *)
Lemma body_cases (gen : Z) (s : State rng) :
  Inv toolbox s -> Ctl s ->
  (exists s', body gen s = Next s' /\ Inv toolbox s' /\ Ctl s' /\ last_min s' <> None) \/
  (exists s' r, body gen s = Break s' /\ Inv toolbox s' /\
     logbook s' = (logbook s ++ [r])%list /\
     rec_shock_event r = Some (snd (branch (decayed s))) /\
     logbook_min (logbook s') = Ok 0) \/
  (exists s', body gen s = Fail UnboundLocalError s' /\
     logbook s' = logbook s /\ last_min s = None /\ fst stuck < 0).
Proof.
  intros HI HC.
  destruct (generation_spec cxpb save_mutpb stuck laws gen HI HC)
    as [[Enone E] | (pool & hof' & m & a & nm & _ & _ & _ & Hmin & E & HI' & HC' & _)].
  - right. right. eexists. split; [exact E|].
    destruct (dispatch_mid save_mutpb stuck laws HI HC)
      as (_ & Ml & _ & _ & _ & _ & _ & _ & _ & _ & Mnone & _).
    split; [exact Ml|]. now apply Mnone.
  - cbv zeta in *. destruct (nm =? 0) eqn:Ez.
    + apply Z.eqb_eq in Ez. subst nm. right. left.
      eexists _, _. split; [exact E|]. split; [exact HI'|]. simpl.
      split; [reflexivity|]. split; [reflexivity|exact Hmin].
    + apply Z.eqb_neq in Ez. left. eexists. split; [exact E|].
      split; [exact HI'|]. split; [exact (HC' Ez)|]. simpl. discriminate.
Qed.

(** The invariants at the end of the call, when it returns. *)
Lemma loop_mono (n : nat) (gen : Z) (s : State rng) :
  Inv toolbox s -> Ctl s ->
  log_mono (outcome_logbook (loop toolbox cxpb save_mutpb stuck n gen s)).
Proof.
  intros HI HC.
  destruct (loop_cases toolbox cxpb save_mutpb stuck n gen s)
    as [(s' & Ha & ->) | [(k & s1 & s' & _ & Ha & Hb & ->)
                         | (k & s1 & e & s' & _ & Ha & Hb & ->)]]; simpl.
  - apply (after_inv cxpb save_mutpb stuck laws n gen HI HC Ha).
  - destruct (after_inv cxpb save_mutpb stuck laws k gen HI HC Ha) as (HI1 & HC1 & _).
    destruct (body_cases (gen + Z.of_nat k) HI1 HC1)
      as [(x & E & _) | [(x & r & E & HI' & _) | (x & E & _)]];
      rewrite E in Hb; try discriminate.
    injection Hb as <-. apply (inv_mono HI').
  - destruct (after_inv cxpb save_mutpb stuck laws k gen HI HC Ha) as (HI1 & HC1 & _).
    destruct (body_cases (gen + Z.of_nat k) HI1 HC1)
      as [(x & E & _) | [(x & r & E & _) | (x & E & El & _)]];
      rewrite E in Hb; try discriminate.
    injection Hb as _ <-. rewrite El. apply (inv_mono HI1).
Qed.

(** C5.  In the logbook of any call, returned or raised, the minimum
    recorded for generation g+1 is at most the one recorded for generation
    g, unless the record of generation g+1 carries the shock event
    ['Comet Strike'], that is, unless generation g+1 is the one produced
    right after a Comet Strike (whose pool is varied as a whole after the
    archive was cleared). *)
Theorem elitism_monotone pop0 K r ngen pre r1 r2 post :
  Forall (sound f) pop0 ->
  outcome_logbook (ea pop0 ngen (Some (mkHof K [])) r) =
    (pre ++ r1 :: r2 :: post)%list ->
  rec_shock_event r2 <> Some Comet_Strike ->
  rec_min r2 <= rec_min r1.
Proof.
  intros Hsound. unfold eaSimpleWithElitism.
  destruct (generation0 toolbox save_mutpb pop0 (Some (mkHof K [])) r)
    as [raised|s0] eqn:E0.
  - assert (Hlog : outcome_logbook raised = []).
    { unfold generation0 in E0.
      destruct (hof_update _ _) as [h1|]; [|now injection E0 as <-].
      destruct (stats_compile _) as [[m a]|]; [discriminate|now injection E0 as <-]. }
    rewrite Hlog. intros E. destruct pre; discriminate.
  - destruct (generation0_spec toolbox save_mutpb K r Hsound E0) as (HI0 & HC0 & _).
    apply (loop_mono (Z.to_nat ngen) 1 HI0 HC0).
Qed.

End WholeRuns.

Lemma elitism_monotone_witness :
  let log := outcome_logbook
               (eaSimpleWithElitism Scenario.first_gene (9 # 10) (1 # 5)
                  (1, Some Comet_Strike) Runs.ten 3 (Some (mkHof 2 [])) 10) in
  let none := mkRec 0 0 0 0 None None in
  rec_min (nth 2 log none) <= rec_min (nth 1 log none).
Proof.
  intros log none.
  apply (@elitism_monotone Z Scenario.first_gene (9 # 10) (1 # 5)
           (1, Some Comet_Strike) ScenarioFacts.first_gene_laws
           Runs.ten 2 10 3 [nth 0 log none] (nth 1 log none) (nth 2 log none)
           (skipn 3 log)).
  - apply ScenarioFacts.create_sound.
  - vm_compute; reflexivity.
  - vm_compute; discriminate.
Defined.

(* ------------------------------------------------------------------ *)
(** ** Early stop *)

Lemma snoc_split (A : Type) (pre post l : list A) (x r : A) :
  (pre ++ x :: post = l ++ [r])%list ->
  (post = [] /\ pre = l /\ x = r) \/
  (exists post', post = (post' ++ [r])%list /\ l = (pre ++ x :: post')%list).
Proof.
  intros E. destruct post as [|y post'] using rev_ind.
  - left. apply app_inj_tail in E. tauto.
  - right. clear IHpost'. exists post'.
    change (pre ++ x :: post' ++ [y])%list
      with (pre ++ (x :: post') ++ [y])%list in E.
    rewrite app_assoc in E. apply app_inj_tail in E. destruct E as [<- <-]. auto.
Qed.

Lemma numbered_snoc (l : list LogRecord) (r : LogRecord) :
  numbered l -> rec_gen r = Z.of_nat (length l) -> numbered (l ++ [r]).
Proof.
  intros Hl Hr pre rec post E. symmetry in E.
  apply snoc_split in E. destruct E as [(_ & -> & ->) | (post' & _ & ->)].
  - exact Hr.
  - now apply (Hl pre rec post').
Qed.

Section Numbering.

Context {rng : Type}.
Variable toolbox : Toolbox rng.
Variable cxpb : Q.
Variable save_mutpb : Q.
Variable stuck : Z * option string.

Local Abbreviation body := (generation toolbox cxpb save_mutpb stuck).

Lemma body_numbered (s s' : State rng) :
  numbered (logbook s) ->
  body (Z.of_nat (length (logbook s))) s = Next s' \/
  body (Z.of_nat (length (logbook s))) s = Break s' ->
  numbered (logbook s') /\ length (logbook s') = S (length (logbook s)).
Proof.
  intros Hn Hdone. rewrite !generation_unfold in Hdone.
  apply vary_and_record_done in Hdone.
  destruct Hdone as (nm & r & Hlog & Hgen & _).
  destruct (decay_dispatch_counting toolbox save_mutpb stuck s) as (_ & Hl & _).
  rewrite Hl in Hlog. rewrite Hlog. split.
  - now apply numbered_snoc.
  - rewrite length_app. simpl. lia.
Qed.

Lemma after_numbered (n : nat) :
  forall (s s' : State rng),
  numbered (logbook s) ->
  after toolbox cxpb save_mutpb stuck n (Z.of_nat (length (logbook s))) s = Some s' ->
  numbered (logbook s') /\ length (logbook s') = (length (logbook s) + n)%nat.
Proof.
  induction n as [|n IH]; intros s s' Hn; simpl.
  - intros H. injection H as <-. split; [assumption|lia].
  - destruct (body _ s) as [s1| |] eqn:E; try discriminate.
    destruct (@body_numbered s s1 Hn (or_introl E)) as [Hn1 Hlen1].
    replace (Z.of_nat (length (logbook s)) + 1)
      with (Z.of_nat (length (logbook s1))) by lia.
    intros H. destruct (IH s1 s' Hn1 H) as [Hn' Hlen']. split; [assumption|lia].
Qed.

End Numbering.

Lemma generation0_numbered {rng : Type} (toolbox : Toolbox rng) (save_mutpb : Q)
  (pop0 : list Individual) (hof0 : option HallOfFame) (r : rng) (s0 : State rng) :
  generation0 toolbox save_mutpb pop0 hof0 r = inr s0 ->
  numbered (logbook s0) /\ length (logbook s0) = 1%nat.
Proof.
  unfold generation0. destruct hof0 as [hof|]; [|discriminate].
  destruct (hof_update _ _) as [h1|]; [|discriminate].
  destruct (stats_compile _) as [[m a]|]; [|discriminate].
  intros H. injection H as <-. simpl. split; [|reflexivity].
  intros pre rec post E. destruct pre as [|x pre]; simpl in E.
  - now injection E as <-.
  - injection E as _ E. destruct pre; discriminate.
Qed.

Section EarlyStop.

Context {rng : Type}.
Variable toolbox : Toolbox rng.
Variable cxpb : Q.
Variable save_mutpb : Q.
Variable stuck : Z * option string.
Hypothesis laws : ToolboxLaws toolbox.

Local Abbreviation f := (evaluate toolbox).
Local Abbreviation body := (generation toolbox cxpb save_mutpb stuck).
Local Abbreviation branch := (dispatch toolbox stuck).
Local Abbreviation decayed := (decay save_mutpb).
Local Abbreviation ea := (eaSimpleWithElitism toolbox cxpb save_mutpb stuck).

Hypothesis nonneg : forall g, 0 <= f g.

(** While the loop goes on, no recorded minimum is 0. *)
Lemma no_zero (s : State rng) (rec : LogRecord) :
  Inv toolbox s -> Ctl s -> last_min s <> None ->
  In rec (logbook s) -> rec_min rec <> 0.
Proof.
  intros HI HC Hl Hrec. destruct (last_min s) as [v|] eqn:El; [|contradiction].
  destruct (ctl_later HC El) as (Hv & Hmin & _).
  destruct (logbook_min_spec _ Hmin) as [Hin Hle].
  unfold mins in Hin. apply in_map_iff in Hin. destruct Hin as (rv & Erv & Hrv).
  destruct (inv_mins HI _ Hrv) as [g Eg].
  specialize (Hle (rec_min rec) (in_map rec_min _ _ Hrec)).
  pose proof (nonneg g). lia.
Qed.

(** When the last record has minimum 0, the head of the archive has
    fitness 0. *)
Lemma best_is_zero (s : State rng) (log : list LogRecord) (rec : LogRecord) :
  Inv toolbox s -> logbook s = (log ++ [rec])%list -> rec_min rec = 0 ->
  exists best rest, items (halloffame s) = best :: rest /\ fitness best = Some 0.
Proof.
  intros HI Elog Hz.
  destruct (inv_record HI) as (log' & r' & Elog' & (i & Hi & Hci) & _).
  rewrite Elog in Elog'. apply app_inj_tail in Elog'. destruct Elog' as [_ <-].
  destruct (inv_covers HI i Hi) as (b & Hb & Hle).
  destruct (inv_hof HI) as [HF HS].
  destruct (items (halloffame s)) as [|best rest] eqn:Ei.
  { destruct Hb. }
  exists best, rest. split; [reflexivity|].
  pose proof (sorted_head_least HS Hb) as Hhead.
  inversion HF as [|? ? Hbest _]; subst.
  pose proof (consistent_cost Hbest) as Hc. pose proof (nonneg (genes best)).
  red in Hbest. rewrite Hbest. f_equal. lia.
Qed.

(** C3, as the code has it.  With costs that are never negative, a
    non-negative threshold, a non-empty population and an archive capacity
    other than 0, the call returns, and whenever the record of some
    generation g has minimum 0: for g >= 1 it is the last record, the loop
    broke at the end of generation g; for g = 0 exactly one more generation
    was run when [ngen >= 1] (the test sits at the end of the loop body
    only), none when [ngen <= 0]; in both cases the first member of the
    archive has fitness 0, so that [ga_solve] sets [solved] to true. *)
Theorem early_stop pop0 K r ngen :
  0 <= fst stuck -> Forall (sound f) pop0 -> pop0 <> [] -> K <> 0 ->
  exists s,
    ea pop0 ngen (Some (mkHof K [])) r = Returned s /\
    numbered (logbook s) /\
    forall pre rec post,
      logbook s = (pre ++ rec :: post)%list -> rec_min rec = 0 ->
      length post = (if (length pre =? 0)%nat && (1 <=? ngen) then 1%nat else 0%nat) /\
      (exists best rest,
         items (halloffame s) = best :: rest /\ fitness best = Some 0) /\
      (forall (Solution : Type) (get_solution : Individual -> Solution)
              (self : GASolver Solution),
         exists self' calls,
           conclude get_solution self (halloffame s) (logbook s) = Ok (self', calls) /\
           solved self' = true).
Proof.
  intros Hthr Hsound Hne HK.
  destruct (generation0_total toolbox save_mutpb r Hne Hsound HK) as [s0 E0].
  destruct (generation0_spec toolbox save_mutpb K r Hsound E0)
    as (HI0 & HC0 & Hl0 & _).
  destruct (generation0_numbered _ _ _ _ _ E0) as [Hn0 Hlen0].
  unfold eaSimpleWithElitism. rewrite E0.
  assert (Hsolved : forall s : State rng,
            (exists best rest, items (halloffame s) = best :: rest /\
                               fitness best = Some 0) ->
            (exists best rest, items (halloffame s) = best :: rest /\
                               fitness best = Some 0) /\
            forall (Solution : Type) (get_solution : Individual -> Solution)
                   (self : GASolver Solution),
              exists self' calls,
                conclude get_solution self (halloffame s) (logbook s) = Ok (self', calls) /\
                solved self' = true).
  { intros s Hbest. split; [exact Hbest|]. intros Solution get_solution self.
    destruct Hbest as (best & rest & Ei & Ef). unfold conclude.
    rewrite Ei, Ef. simpl. eexists _, _. split; reflexivity. }
  assert (Hgen1 : 1 = Z.of_nat (length (logbook s0))) by (rewrite Hlen0; reflexivity).
  destruct (loop_cases toolbox cxpb save_mutpb stuck (Z.to_nat ngen) 1 s0)
    as [(s & Ha & ->) | [(k & s1 & s & Hk & Ha & Hb & ->)
                        | (k & s1 & e & s & Hk & Ha & Hb & ->)]].
  - (* the generations ran out *)
    exists s. split; [reflexivity|].
    destruct (after_inv cxpb save_mutpb stuck laws _ _ HI0 HC0 Ha)
      as (HI & HC & Hl & _).
    rewrite Hgen1 in Ha.
    destruct (after_numbered _ _ _ _ _ _ Hn0 Ha) as [Hn Hlen].
    split; [exact Hn|]. intros pre rec post Elog Hz.
    destruct (Z.to_nat ngen) as [|n] eqn:En.
    + simpl in Ha. injection Ha as <-.
      rewrite Elog in Hlen0. rewrite length_app in Hlen0. simpl in Hlen0.
      assert (Hpre : pre = []) by (destruct pre; [reflexivity|simpl in Hlen0; lia]).
      assert (Hpost : post = []) by (destruct post; [reflexivity|simpl in Hlen0; lia]).
      subst pre post. simpl.
      assert (Hng : (1 <=? ngen) = false) by (apply Z.leb_gt; lia).
      rewrite Hng. split; [reflexivity|].
      apply Hsolved. now apply (@best_is_zero s0 [] rec HI0).
    + exfalso. apply (@no_zero s rec HI HC); [apply Hl; lia| |exact Hz].
      rewrite Elog. apply in_or_app. right. now left.
  - (* a generation broke *)
    exists s. split; [reflexivity|].
    destruct (after_inv cxpb save_mutpb stuck laws _ _ HI0 HC0 Ha)
      as (HI1 & HC1 & Hl1 & _).
    rewrite Hgen1 in Ha.
    destruct (after_numbered _ _ _ _ _ _ Hn0 Ha) as [Hn1 Hlen1].
    destruct (body_cases cxpb save_mutpb stuck laws (1 + Z.of_nat k) HI1 HC1)
      as [(x & E & _) | [(x & rl & E & HI & Elog' & Hev & Hmin) | (x & E & _)]];
      rewrite E in Hb; try discriminate.
    injection Hb as Hb. subst x.
    assert (Hn : numbered (logbook s)).
    { apply (@body_numbered rng toolbox cxpb save_mutpb stuck s1 s Hn1).
      right. rewrite <- E. f_equal. lia. }
    split; [exact Hn|]. intros pre rec post Elog Hz.
    rewrite Elog' in Elog. symmetry in Elog. apply snoc_split in Elog.
    destruct Elog as [(-> & -> & ->) | (post' & -> & Es1)].
    + assert (Hpre : (length (logbook s1) =? 0)%nat = false).
      { apply Nat.eqb_neq. lia. }
      rewrite Hpre. simpl. split; [reflexivity|].
      apply Hsolved. now apply (@best_is_zero s (logbook s1) rl HI).
    + destruct k as [|k].
      * simpl in Ha. injection Ha as <-.
        rewrite Es1 in Hlen0. rewrite length_app in Hlen0. simpl in Hlen0.
        assert (Hpre : pre = []) by (destruct pre; [reflexivity|simpl in Hlen0; lia]).
        assert (Hpost : post' = []) by (destruct post'; [reflexivity|simpl in Hlen0; lia]).
        subst pre post'. simpl in *.
        assert (Hng : (1 <=? ngen) = true) by (apply Z.leb_le; lia).
        rewrite Hng. split; [reflexivity|].
        apply Hsolved. apply (@best_is_zero s [rec] rl HI).
        { rewrite Elog', Es1. reflexivity. }
        assert (Hev' : snd (branch (decayed s0)) = EmptyString).
        { destruct (ctl_first HC0 Hl0) as (Hc0 & _).
          destruct (decay_fields save_mutpb s0) as (_ & _ & _ & _ & _ & _ & _ & _ & Dc).
          assert (Hd : stuck_count (decayed s0) = 0) by (destruct Dc; congruence).
          destruct (dispatch_cases toolbox stuck (decayed s0))
            as [[_ Eb] | [(Hlt & _) | [(Hlt & _) | (Hlt & _)]]];
            [now rewrite Eb | lia | lia | lia]. }
        assert (Hle : rec_min rl <= rec_min rec).
        { apply (inv_mono HI [] rec rl []).
          - rewrite Elog', Es1. reflexivity.
          - rewrite Hev, Hev'. discriminate. }
        destruct (logbook_min_spec _ Hmin) as [_ Hall].
        assert (H0 : 0 <= rec_min rl).
        { apply Hall. unfold mins. apply in_map. rewrite Elog'.
          apply in_or_app. right. now left. }
        lia.
      * exfalso. apply (@no_zero s1 rec HI1 HC1); [apply Hl1; lia| |exact Hz].
        rewrite Es1. apply in_or_app. right. now left.
  - (* no generation raises *)
    exfalso.
    destruct (after_inv cxpb save_mutpb stuck laws _ _ HI0 HC0 Ha) as (HI1 & HC1 & _).
    destruct (body_cases cxpb save_mutpb stuck laws (1 + Z.of_nat k) HI1 HC1)
      as [(x & E & _) | [(x & rl & E & _) | (x & E & _ & _ & Hneg)]];
      rewrite E in Hb; try discriminate. lia.
Qed.

End EarlyStop.

Lemma five_nonneg (g : list Z) : 0 <= evaluate Scenario.five g.
Proof. simpl. destruct (hd 0 g =? 5); lia. Qed.

Lemma early_stop_witness :
  exists s,
    eaSimpleWithElitism Scenario.five (9 # 10) (1 # 5) (50, Some chernobyl)
                        Runs.ten 8 (Some (mkHof 2 [])) 10 = Returned s /\
    length (logbook s) = 2%nat /\
    exists best rest, items (halloffame s) = best :: rest /\ fitness best = Some 0.
Proof.
  destruct (@early_stop Z Scenario.five (9 # 10) (1 # 5) (50, Some chernobyl)
              ScenarioFacts.five_laws five_nonneg Runs.ten 2 10 8)
    as (s & E & _ & Hz).
  - discriminate.
  - apply ScenarioFacts.create_sound.
  - discriminate.
  - discriminate.
  - exists s. split; [exact E|].
    pose proof E as E'. vm_compute in E'. injection E' as E'. subst s.
    split; [reflexivity|].
    exact (proj1 (proj2 (Hz [] _ [_] eq_refl eq_refl))).
Defined.

(** C3 as stated fails in its generation-0 scenario (cost 0 when the first
    gene is 5, else 1; the sixth of ten individuals has first gene 5): the
    call does not stop at generation 0 but runs generation 1 and stops
    there. *)
Lemma zero_at_generation_0_runs_generation_1 :
  let o := eaSimpleWithElitism Scenario.five (9 # 10) (1 # 5) (50, Some chernobyl)
                               Runs.ten 8 (Some (mkHof 2 [])) 10 in
  map (fun i => evaluate Scenario.five (genes i)) Runs.ten =
    [1; 1; 1; 1; 1; 0; 1; 1; 1; 1] /\
  map rec_gen (outcome_logbook o) = [0; 1] /\
  map rec_min (outcome_logbook o) = [0; 0] /\
  last_gen (outcome_logbook o) <> 0.
Proof.
  repeat split; try (vm_compute; reflexivity). vm_compute; discriminate.
Qed.

(* ------------------------------------------------------------------ *)
(** ** The solver *)

Section SolverFacts.

Context {rng Solution : Type}.
Variable toolbox : Toolbox rng.
Variable get_solution : Individual -> Solution.
Hypothesis laws : ToolboxLaws toolbox.

Lemma returned_inv cxpb mutpb stuck pop0 K r ngen s :
  Forall (sound (evaluate toolbox)) pop0 ->
  eaSimpleWithElitism toolbox cxpb mutpb stuck pop0 ngen (Some (mkHof K [])) r =
    Returned s ->
  Inv toolbox s.
Proof.
  intros Hsound. unfold eaSimpleWithElitism.
  destruct (generation0 toolbox mutpb pop0 (Some (mkHof K [])) r) as [raised|s0] eqn:E0.
  - unfold generation0 in E0.
    destruct (hof_update _ _) as [h1|]; [|injection E0 as <-; discriminate].
    destruct (stats_compile _) as [[m a]|]; [discriminate|].
    injection E0 as <-; discriminate.
  - destruct (generation0_spec toolbox mutpb K r Hsound E0) as (HI0 & HC0 & _).
    destruct (loop_cases toolbox cxpb mutpb stuck (Z.to_nat ngen) 1 s0)
      as [(s' & Ha & ->) | [(k & s1 & s' & _ & Ha & Hb & ->)
                           | (k & s1 & e & s' & _ & Ha & Hb & ->)]];
      intros H; try discriminate; injection H as <-.
    + apply (after_inv cxpb mutpb stuck laws _ _ HI0 HC0 Ha).
    + destruct (after_inv cxpb mutpb stuck laws _ _ HI0 HC0 Ha) as (HI1 & HC1 & _).
      destruct (body_cases cxpb mutpb stuck laws (1 + Z.of_nat k) HI1 HC1)
        as [(x & E & _) | [(x & rl & E & HI & _) | (x & E & _)]];
        rewrite E in Hb; try discriminate.
      injection Hb as Hb. now subst x.
Qed.

(** On a solver as [__init__] leaves it ([solved = False]), once the
    engine has returned, [ga_solve] completes; [solved] is then true exactly
    when the first member of the archive has fitness 0, in which case the
    decoded first member is stored as the solution and, if a callback is
    attached, it is called once, with [True] and that solution (otherwise it
    is called once with [False]). *)
Theorem solved_iff_best_is_zero (self : GASolver Solution) (r : rng) (s : State rng) :
  solved self = false ->
  run_engine toolbox self r = Returned s ->
  exists best rest v self' calls,
    items (halloffame s) = best :: rest /\ fitness best = Some v /\
    ga_solve toolbox get_solution self r = Ok (self', calls) /\
    (solved self' = true <-> v = 0) /\
    solution self' = Some (get_solution best) /\
    calls = (if final_callback self
             then [if solved self' then Call_solved (get_solution best)
                   else Call_unsolved]
             else []).
Proof.
  intros Hfresh Hrun. unfold ga_solve. rewrite Hrun.
  assert (HI : Inv toolbox s).
  { unfold run_engine in Hrun.
    pose proof (creator_fresh laws r (population_size self)) as Hfr.
    destruct (populationCreator toolbox r (population_size self)) as [pop r'].
    eapply returned_inv; [|exact Hrun].
    apply Forall_forall. intros i Hi. left. now apply Hfr. }
  destruct (inv_hof HI) as [HF _]. pose proof (inv_hof_nonempty HI) as Hne.
  unfold conclude.
  destruct (items (halloffame s)) as [|best rest]; [contradiction|].
  inversion HF as [|? ? Hbest _]; subst. red in Hbest.
  exists best, rest, (evaluate toolbox (genes best)). rewrite Hbest.
  destruct (evaluate toolbox (genes best) =? 0) eqn:Ez.
  - eexists _, _. split; [reflexivity|]. split; [reflexivity|].
    split; [reflexivity|]. simpl. apply Z.eqb_eq in Ez.
    split; [tauto|]. split; reflexivity.
  - eexists _, _. split; [reflexivity|]. split; [reflexivity|].
    split; [reflexivity|]. simpl. apply Z.eqb_neq in Ez. rewrite Hfresh.
    split; [split; [discriminate|contradiction]|]. split; reflexivity.
Qed.

End SolverFacts.

(** A second call on a solver that has already solved its puzzle leaves
    [solved] true whatever the new archive holds: the failing branch assigns
    [self.solvable], not [self.solved]. *)
Remark conclude_keeps_solved (Solution : Type) (get_solution : Individual -> Solution)
  (self self' : GASolver Solution) (hof : HallOfFame) (log : list LogRecord)
  (calls : list (final_call Solution)) :
  solved self = true ->
  conclude get_solution self hof log = Ok (self', calls) -> solved self' = true.
Proof.
  intros Hs. unfold conclude. destruct (items hof) as [|best rest]; [discriminate|].
  destruct (fitness best) as [v|]; [|discriminate].
  destruct (v =? 0); intros H; injection H as <- _; simpl; auto.
Qed.

Lemma solved_iff_best_is_zero_witness :
  exists s best rest v self' calls,
    run_engine Scenario.five
               (new_solver (Solution := list Z) 10 8 2 (9 # 10) (1 # 5) true) 0 =
      Returned s /\
    items (halloffame s) = best :: rest /\ fitness best = Some v /\
    ga_solve Scenario.five genes (new_solver 10 8 2 (9 # 10) (1 # 5) true) 0 =
      Ok (self', calls) /\
    (solved self' = true <-> v = 0) /\
    calls = [if solved self' then Call_solved (genes best) else Call_unsolved].
Proof.
  assert (Hrun : exists s, run_engine Scenario.five
                   (new_solver (Solution := list Z) 10 8 2 (9 # 10) (1 # 5) true) 0 =
                 Returned s).
  { eexists. vm_compute. reflexivity. }
  destruct Hrun as [s Hrun].
  destruct (@solved_iff_best_is_zero Z (list Z) Scenario.five genes
              ScenarioFacts.five_laws
              (new_solver 10 8 2 (9 # 10) (1 # 5) true) 0 s eq_refl Hrun)
    as (best & rest & v & self' & calls & Hi & Hf & Hg & Hiff & _ & Hc).
  exists s, best, rest, v, self', calls. auto 10.
Defined.

(** C8 does not hold of the code when a solver is used twice.  The branch
    for a best fitness other than 0 assigns [self.solvable] where its
    sibling assigns [self.solved], so nothing ever takes [solved] back to
    false.  A solver of ten individuals finds gene 5 in its first
    [ga_solve] and is solved; its second [ga_solve], which goes on from the
    generator state the first one left, creates the individuals 10 to 19
    and ends with a best fitness of 1: [final_callback(False)] is called,
    yet [solved] is still true. *)
Theorem solved_flag_survives_failed_run :
  let fresh := new_solver (Solution := list Z) 10 8 2 (9 # 10) (1 # 5) true in
  exists s1 self1 s2 self2 best rest,
    run_engine Scenario.five fresh 0 = Returned s1 /\
    ga_solve Scenario.five genes fresh 0 = Ok (self1, [Call_solved [5]]) /\
    solved self1 = true /\
    run_engine Scenario.five self1 (random s1) = Returned s2 /\
    items (halloffame s2) = best :: rest /\ fitness best = Some 1 /\
    ga_solve Scenario.five genes self1 (random s1) = Ok (self2, [Call_unsolved]) /\
    solved self2 = true /\ solvable self2 = Some false /\
    GASolver_get_solution self2 = Some (genes best, true).
Proof.
  cbv zeta. eexists _, _, _, _, _, _.
  split; [vm_compute; reflexivity|].
  split; [vm_compute; reflexivity|].
  split; [reflexivity|].
  split; [vm_compute; reflexivity|].
  split; [reflexivity|].
  split; [reflexivity|].
  split; [vm_compute; reflexivity|].
  split; [reflexivity|]. split; reflexivity.
Qed.

(* ------------------------------------------------------------------ *)
(** ** Population size *)

(** C1 does not hold of the code.  In the solver's own configuration
    ([stuck=(50, 'chernobyl')]) a run of 60 generations that never improves
    ends with 6 individuals, not the 4 it was created with: generation 53
    fires the trigger, selects nothing, varies the whole previous population
    and appends the archive.  With ['Radiation Leak'] and a threshold of 1
    the lengths at the end of generations 0 to 8 are 4, 4, 4, 4, 6, 6, 8, 8,
    10.  With ['Comet Strike'] on an archive of one the lengths are 5, 5, 5,
    5, 3, 5, 5, 7, 7. *)
Theorem population_size_changes :
  (exists s,
     run_engine Scenario.flat (new_solver (Solution := list Z) 4 60 2 (9 # 10) (1 # 5) false) 0 =
       Returned s /\
     len (population s) = 6 /\
     map rec_shock_event (skipn 52 (logbook s)) =
       repeat (Some EmptyString) 9) /\
  Runs.lengths Scenario.flat (9 # 10) (1 # 5) (1, Some Radiation_Leak) Runs.four 2 4 8 =
    [4; 4; 4; 4; 6; 6; 8; 8; 10] /\
  Runs.lengths Scenario.flat (9 # 10) (1 # 5) (1, Some Comet_Strike) Runs.clones 3 100 8 =
    [5; 5; 5; 5; 3; 5; 5; 7; 7].
Proof.
  split; [|split]; [|vm_compute; reflexivity|vm_compute; reflexivity].
  eexists. split; [vm_compute; reflexivity|]. split; vm_compute; reflexivity.
Qed.

(* ================================================================== *)
(** * Further properties of the engine and the solver *)

(* ------------------------------------------------------------------ *)
(** ** Reading the state off the code *)

Section Fields.

Context {rng : Type}.
Variable toolbox : Toolbox rng.
Variable cxpb : Q.
Variable save_mutpb : Q.
Variable stuck : Z * option string.

Local Abbreviation body := (generation toolbox cxpb save_mutpb stuck).
Local Abbreviation branch := (dispatch toolbox stuck).
Local Abbreviation decayed := (decay save_mutpb).

(** The locals as lines 33-37 leave them. *)
Lemma generation0_start (pop0 : list Individual) (hof0 : option HallOfFame)
  (r : rng) (s0 : State rng) :
  generation0 toolbox save_mutpb pop0 hof0 r = inr s0 ->
  offspring s0 = None /\ stuck_count s0 = 0 /\ radiation s0 = 0 /\
  mutpb s0 = save_mutpb /\ last_min s0 = None /\
  population s0 = evaluate_invalid toolbox pop0 /\
  hof_size s0 = hof_len (halloffame s0) /\
  exists hof, hof0 = Some hof /\
              hof_update hof (population s0) = Ok (halloffame s0).
Proof.
  unfold generation0. destruct hof0 as [hof|]; [|discriminate].
  destruct (hof_update _ _) as [h1|] eqn:Hupd; [|discriminate].
  destruct (stats_compile _) as [[m a]|]; [|discriminate].
  intros H. injection H as <-. simpl. repeat split; eauto.
Qed.

(** The state a completed body ends in, field by field. *)
Lemma vary_and_record_fields (gen : Z) (ev : string) (s s' : State rng) :
  vary_and_record toolbox cxpb gen ev s = Next s' \/
  vary_and_record toolbox cxpb gen ev s = Break s' ->
  exists pool,
    offspring s = Some pool /\
    population s' =
      (evaluate_invalid toolbox (fst (varAnd toolbox (random s) pool cxpb (mutpb s)))
       ++ items (halloffame s))%list /\
    offspring s' = Some (population s') /\
    hof_update (halloffame s) (population s') = Ok (halloffame s') /\
    hof_size s' = hof_size s /\ mutpb s' = mutpb s /\ radiation s' = radiation s /\
    random s' = snd (varAnd toolbox (random s) pool cxpb (mutpb s)).
Proof.
  unfold vary_and_record. destruct (offspring s) as [pool|].
  2:{ intros [H|H]; discriminate. }
  exists pool. split; [reflexivity|]. revert H.
  destruct (varAnd toolbox (random s) pool cxpb (mutpb s)) as [varied r].
  destruct (hof_update _ _) as [hof'|e] eqn:Hupd. 2:{ intros [H|H]; discriminate. }
  destruct (stats_compile _) as [[m a]|e]. 2:{ intros [H|H]; discriminate. }
  destruct (logbook_min _) as [new_min|e]. 2:{ intros [H|H]; discriminate. }
  destruct (new_min =? 0); intros [H|H]; try discriminate;
    injection H as <-; simpl; repeat split; auto.
Qed.

(** What the branch does to the fields the body does not touch. *)
Lemma dispatch_fields (x : State rng) :
  let s1 := fst (branch x) in
  population s1 = population x /\ logbook s1 = logbook x /\
  last_min s1 = last_min x /\ hof_size s1 = hof_size x /\
  (stuck_count s1 = stuck_count x \/ stuck_count s1 = 0).
Proof.
  destruct (dispatch_cases toolbox stuck x)
    as [[_ E] | [(_ & _ & _ & E) | [(_ & _ & _ & E) | (_ & _ & _ & E)]]];
    cbv zeta; rewrite E; clear E.
  - unfold normal_selection. destruct (select _ _ _ _). simpl. auto 10.
  - unfold comet_strike. destruct (populationCreator _ _ _). simpl. auto 10.
  - simpl. auto 10.
  - simpl. auto 10.
Qed.

End Fields.

(* ------------------------------------------------------------------ *)
(** ** How a call ends *)

Section Endings.

Context {rng : Type}.
Variable toolbox : Toolbox rng.
Variable cxpb : Q.
Variable save_mutpb : Q.
Variable stuck : Z * option string.

Local Abbreviation body := (generation toolbox cxpb save_mutpb stuck).
Local Abbreviation branch := (dispatch toolbox stuck).
Local Abbreviation decayed := (decay save_mutpb).
Local Abbreviation ea := (eaSimpleWithElitism toolbox cxpb save_mutpb stuck).

(** X1.  The logbook a call returns has one record per generation run,
    numbered 0, 1, 2, ... in order; there are at least one and at most
    [ngen + 1] of them, and fewer than [ngen + 1] only when the minimum of
    the whole [min] column is 0: the loop is left early by the early stop
    and by nothing else. *)
Theorem logbook_shape pop0 hof0 r ngen s :
  ea pop0 ngen hof0 r = Returned s ->
  numbered (logbook s) /\
  (1 <= length (logbook s) <= S (Z.to_nat ngen))%nat /\
  ((length (logbook s) < S (Z.to_nat ngen))%nat -> logbook_min (logbook s) = Ok 0).
Proof.
  unfold eaSimpleWithElitism.
  destruct (generation0 toolbox save_mutpb pop0 hof0 r) as [raised|s0] eqn:E0.
  { unfold generation0 in E0. destruct hof0 as [hof|]; [|injection E0 as <-; discriminate].
    destruct (hof_update _ _) as [h1|]; [|injection E0 as <-; discriminate].
    destruct (stats_compile _) as [[m a]|]; [discriminate|].
    injection E0 as <-; discriminate. }
  destruct (generation0_numbered _ _ _ _ _ E0) as [Hn0 Hlen0].
  assert (Hgen1 : 1 = Z.of_nat (length (logbook s0))) by (rewrite Hlen0; reflexivity).
  destruct (loop_cases toolbox cxpb save_mutpb stuck (Z.to_nat ngen) 1 s0)
    as [(s' & Ha & ->) | [(k & s1 & s' & Hk & Ha & Hb & ->)
                         | (k & s1 & e & s' & _ & Ha & Hb & ->)]];
    intros H; try discriminate; injection H as <-; rewrite Hgen1 in Ha.
  - destruct (after_numbered _ _ _ _ _ _ Hn0 Ha) as [Hn Hlen].
    split; [exact Hn|]. split; lia.
  - destruct (after_numbered _ _ _ _ _ _ Hn0 Ha) as [Hn1 Hlen1].
    assert (Hb' : body (Z.of_nat (length (logbook s1))) s1 = Break s').
    { rewrite <- Hb. f_equal. lia. }
    destruct (body_numbered toolbox cxpb save_mutpb stuck s1 Hn1 (or_intror Hb'))
      as [Hn Hlen].
    split; [exact Hn|]. split; [lia|]. intros _.
    rewrite generation_unfold in Hb'.
    assert (Hdone : vary_and_record toolbox cxpb (Z.of_nat (length (logbook s1)))
                      (snd (branch (decayed s1))) (fst (branch (decayed s1))) = Next s' \/
                    vary_and_record toolbox cxpb (Z.of_nat (length (logbook s1)))
                      (snd (branch (decayed s1))) (fst (branch (decayed s1))) = Break s')
      by (right; exact Hb').
    apply vary_and_record_done in Hdone.
    destruct Hdone as (nm & rl & _ & _ & _ & _ & Hmin & _ & _ & Hbreak).
    rewrite Hmin. f_equal. now apply Hbreak.
Qed.

(** Called with an empty population the engine raises [ValueError]
    when it compiles the statistics of generation 0 ([np.min] of an empty
    sequence): the archive it was given is untouched and no record is
    written. *)
Remark empty_population_raises (hof : HallOfFame) (ngen : Z) (r : rng) :
  ea [] ngen (Some hof) r = Raised ValueError [] (Some hof) [].
Proof. reflexivity. Qed.

(** X2.  With a non-empty population and an empty archive of capacity 0,
    the first archive update raises [IndexError] (the archive's worst
    member is read where there is none): the population has been evaluated,
    the archive is still empty and no record is written. *)
Theorem zero_capacity_raises (pop0 : list Individual) (ngen : Z) (r : rng) :
  pop0 <> [] ->
  ea pop0 ngen (Some (mkHof 0 [])) r =
    Raised IndexError (evaluate_invalid toolbox pop0) (Some (mkHof 0 [])) [].
Proof.
  intros Hne. unfold eaSimpleWithElitism, generation0.
  rewrite hof_update_zero_capacity; [reflexivity|].
  destruct pop0; [contradiction|discriminate].
Qed.

(** X3.  With a negative threshold and a kind other than ['Comet Strike']
    the trigger fires in generation 1, where no pool was ever assigned: the
    call raises [UnboundLocalError] out of generation 1, leaving the
    population, the archive and the one-record logbook of generation 0. *)
Theorem unbound_pool_raises pop0 hof0 r ngen s0 :
  generation0 toolbox save_mutpb pop0 hof0 r = inr s0 ->
  1 <= ngen -> fst stuck < 0 -> kind_is (snd stuck) Comet_Strike = false ->
  ea pop0 ngen hof0 r =
    Raised UnboundLocalError (population s0) (Some (halloffame s0)) (logbook s0).
Proof.
  intros E0 Hngen Hneg Hkind. unfold eaSimpleWithElitism. rewrite E0.
  destruct (generation0_start _ _ _ _ _ E0) as (Ho & Hc & _).
  destruct (Z.to_nat ngen) as [|n] eqn:En; [lia|]. simpl.
  rewrite generation_unfold.
  destruct (decay_fields save_mutpb s0) as (Dp & Do & Dh & _ & Dl & _ & _ & _ & Dc).
  assert (Hfire : fst stuck < stuck_count (decayed s0)).
  { destruct Dc as [-> | ->]; lia. }
  destruct (dispatch_stale toolbox stuck (decayed s0) Hfire Hkind) as (So & Sh & _ & Sp & _).
  destruct (dispatch_fields toolbox stuck (decayed s0)) as (_ & Sl & _).
  rewrite vary_and_record_unbound; [|congruence].
  unfold raised_in. rewrite Sp, Sh, Sl, Dp, Dh, Dl. reflexivity.
Qed.

End Endings.

Lemma logbook_shape_witness :
  let s := Runs.leak_at 3 in
  numbered (logbook s) /\ (1 <= length (logbook s) <= S (Z.to_nat 3))%nat.
Proof.
  intros s.
  assert (E : eaSimpleWithElitism Scenario.flat (9 # 10) (1 # 5)
                (1, Some Radiation_Leak) Runs.four 3 (Some (mkHof 2 [])) 4 = Returned s).
  { vm_compute. reflexivity. }
  destruct (logbook_shape _ _ _ _ _ _ _ _ E) as (Hn & Hlen & _).
  split; [exact Hn|exact Hlen].
Defined.

Lemma zero_capacity_raises_witness :
  eaSimpleWithElitism Scenario.flat (9 # 10) (1 # 5) (50, Some chernobyl)
                      Runs.four 3 (Some (mkHof 0 [])) 4 =
    Raised IndexError (evaluate_invalid Scenario.flat Runs.four) (Some (mkHof 0 [])) [].
Proof.
  apply (zero_capacity_raises Scenario.flat (9 # 10) (1 # 5) (50, Some chernobyl)).
  discriminate.
Defined.

Lemma unbound_pool_raises_witness :
  let s0 := Runs.state_at Scenario.flat (9 # 10) (1 # 5) (-1, Some Radiation_Leak)
                          Runs.four 2 4 0 in
  eaSimpleWithElitism Scenario.flat (9 # 10) (1 # 5) (-1, Some Radiation_Leak)
                      Runs.four 3 (Some (mkHof 2 [])) 4 =
    Raised UnboundLocalError (population s0) (Some (halloffame s0)) (logbook s0).
Proof.
  intros s0.
  apply (@unbound_pool_raises Z Scenario.flat (9 # 10) (1 # 5)
           (-1, Some Radiation_Leak) Runs.four (Some (mkHof 2 [])) 4 3 s0).
  - vm_compute. reflexivity.
  - discriminate.
  - reflexivity.
  - reflexivity.
Defined.

(* ------------------------------------------------------------------ *)
(** ** Calls that go through *)

Section Completion.

Context {rng : Type}.
Variable toolbox : Toolbox rng.
Variable cxpb : Q.
Variable save_mutpb : Q.
Variable stuck : Z * option string.
Hypothesis laws : ToolboxLaws toolbox.

Local Abbreviation f := (evaluate toolbox).
Local Abbreviation body := (generation toolbox cxpb save_mutpb stuck).
Local Abbreviation ea := (eaSimpleWithElitism toolbox cxpb save_mutpb stuck).



(** X5.  The engine evaluates the invalid individuals only and keeps a
    valid fitness as it came.  So when every valid fitness of the population
    passed in is the one [evaluate] gives for the genes (as for a population
    fresh from the creator) and the archive is passed in empty, whatever the
    call returns is fully evaluated: every member of the returned population
    and of the archive carries a valid fitness, the one [evaluate] gives for
    its genes. *)
Theorem returned_evaluated pop0 K r ngen s :
  Forall (sound f) pop0 ->
  ea pop0 ngen (Some (mkHof K [])) r = Returned s ->
  Forall (fun i => fitness i = Some (f (genes i))) (population s) /\
  Forall (fun i => fitness i = Some (f (genes i))) (items (halloffame s)).
Proof.
  intros Hsound E.
  assert (HI : Inv toolbox s) by (eapply returned_inv; eauto).
  split; [apply (inv_population HI)|apply (inv_hof HI)].
Qed.

End Completion.

(* ------------------------------------------------------------------ *)
(** ** The mutation rate and the spacing of shocks *)

Section Schedule.

Context {rng : Type}.
Variable toolbox : Toolbox rng.
Variable cxpb : Q.
Variable save_mutpb : Q.
Variable stuck : Z * option string.

Local Abbreviation body := (generation toolbox cxpb save_mutpb stuck).
Local Abbreviation branch := (dispatch toolbox stuck).
Local Abbreviation decayed := (decay save_mutpb).
Local Abbreviation reached := (reached toolbox cxpb save_mutpb stuck).

(** Lines 42-67, for the countdown, the rate and the counter. *)
Lemma branch_schedule (s : State rng) :
  let d := decayed s in
  let s1 := fst (branch d) in
  let fires := fst stuck <? stuck_count d in
  let leak := fires && kind_is (snd stuck) Radiation_Leak in
  let counting := Z.max (radiation s - 1) 0 =? 0 in
  radiation s1 = (if leak then fst stuck else Z.max (radiation s - 1) 0) /\
  mutpb s1 = (if leak then 1 # 2 else if counting then save_mutpb else mutpb s) /\
  stuck_count s1 = (if fires then 0 else stuck_count d) /\
  stuck_count d = (if counting then stuck_count s else 0).
Proof.
  cbv zeta.
  assert (Hd : radiation (decayed s) = Z.max (radiation s - 1) 0 /\
               mutpb (decayed s) =
                 (if Z.max (radiation s - 1) 0 =? 0 then save_mutpb else mutpb s) /\
               stuck_count (decayed s) =
                 (if Z.max (radiation s - 1) 0 =? 0 then stuck_count s else 0)).
  { unfold decay. destruct (Z.max (radiation s - 1) 0 =? 0); simpl; auto. }
  destruct Hd as (Dr & Dm & Dc).
  destruct (dispatch_cases toolbox stuck (decayed s))
    as [[Hle E] | [(Hlt & Ec & El & E) | [(Hlt & Ec & El & E) | (Hlt & Ec & El & E)]]];
    rewrite E; clear E.
  - apply Z.ltb_ge in Hle. rewrite Hle. simpl.
    unfold normal_selection. destruct (select _ _ _ _). simpl. auto.
  - apply Z.ltb_lt in Hlt. rewrite Hlt, El. simpl.
    unfold comet_strike. destruct (populationCreator _ _ _). simpl. auto.
  - apply Z.ltb_lt in Hlt. rewrite Hlt, El. simpl. auto.
  - apply Z.ltb_lt in Hlt. rewrite Hlt, El. simpl. auto.
Qed.

Lemma body_schedule (gen : Z) (s s' : State rng) :
  body gen s = Next s' \/ body gen s = Break s' ->
  let s1 := fst (branch (decayed s)) in
  mutpb s' = mutpb s1 /\ radiation s' = radiation s1 /\
  (0 <= stuck_count s1 -> 0 <= stuck_count s' <= stuck_count s1 + 1).
Proof.
  intros Hdone s1. rewrite !generation_unfold in Hdone. fold s1 in Hdone.
  pose proof Hdone as Hdone'.
  apply vary_and_record_fields in Hdone.
  destruct Hdone as (pool & _ & _ & _ & _ & _ & Hm & Hr & _).
  apply vary_and_record_done in Hdone'.
  destruct Hdone' as (nm & rl & _ & _ & _ & _ & _ & _ & Hc & _).
  split; [exact Hm|]. split; [exact Hr|]. intros H0. rewrite Hc.
  unfold count_stuck. destruct (truthy (last_min s1)); [|lia].
  destruct (last_min s1); [|lia]. destruct (nm =? z); lia.
Qed.




Lemma after_count (j : nat) :
  forall (gen c : Z) (s t : State rng),
  0 <= stuck_count s <= c ->
  after toolbox cxpb save_mutpb stuck j gen s = Some t ->
  0 <= stuck_count t <= c + Z.of_nat j.
Proof.
  induction j as [|j IH]; intros gen c s t Hc; simpl after.
  - intros H. injection H as <-. lia.
  - destruct (body gen s) as [s1| |] eqn:E; try discriminate.
    intros Ha.
    destruct (body_schedule gen s (or_introl E)) as (_ & _ & Ec).
    destruct (branch_schedule s) as (_ & _ & Bc & Bd). cbv zeta in *.
    assert (Hc1 : 0 <= stuck_count (fst (branch (decayed s))) <= c).
    { rewrite Bc. destruct (fst stuck <? _); [lia|]. rewrite Bd.
      destruct (Z.max (radiation s - 1) 0 =? 0); lia. }
    assert (H1 : 0 <= stuck_count s1 <= c + 1) by lia.
    pose proof (IH (gen + 1) (c + 1) s1 t H1 Ha). lia.
Qed.

(** X7.  Shocks keep their distance: with a threshold [T >= 0], when the
    trigger fires in generation [n + 1], it does not fire in any of the [T]
    generations that follow; each of them takes the selection branch, with
    an empty [shock_event]. *)
Theorem shocks_are_spaced pop0 K r n s j t :
  0 <= fst stuck ->
  reached pop0 K r n s ->
  fst stuck < stuck_count (decayed s) ->
  after toolbox cxpb save_mutpb stuck (S j) (Z.of_nat n + 1) s = Some t ->
  Z.of_nat j < fst stuck ->
  stuck_count (decayed t) <= fst stuck /\
  branch (decayed t) = (normal_selection toolbox (decayed t), EmptyString).
Proof.
  intros Hthr Hreach Hfire Ha Hj.
  simpl after in Ha.
  destruct (body (Z.of_nat n + 1) s) as [s1| |] eqn:E; try discriminate.
  destruct (body_schedule _ s (or_introl E)) as (_ & _ & Ec).
  destruct (branch_schedule s) as (_ & _ & Bc & _). cbv zeta in *.
  apply Z.ltb_lt in Hfire. rewrite Hfire in Bc. rewrite Bc in Ec.
  assert (Hs1 : 0 <= stuck_count s1 <= 1) by lia.
  pose proof (after_count j _ _ Hs1 Ha) as Ht.
  assert (Hd : stuck_count (decayed t) <= fst stuck).
  { destruct (decay_fields save_mutpb t) as (_ & _ & _ & _ & _ & _ & _ & _ & Dc).
    destruct Dc as [-> | ->]; lia. }
  split; [exact Hd|].
  destruct (dispatch_cases toolbox stuck (decayed t))
    as [[_ Eb] | [(Hlt & _) | [(Hlt & _) | (Hlt & _)]]]; [exact Eb|lia|lia|lia].
Qed.

End Schedule.

(* ------------------------------------------------------------------ *)
(** ** More on the archive update *)

(** One candidate: nobody enters the archive but the candidate (or, into an
    empty archive, [population[0]]), and the archive does not get shorter,
    nor longer by more than one. *)
Lemma hof_update_one_members (first ind : Individual) (h h' : HallOfFame) :
  hof_update_one first h ind = Ok h' ->
  (forall m, In m (items h') -> m = first \/ m = ind \/ In m (items h)) /\
  hof_len h <= hof_len h' <= hof_len h + 1.
Proof.
  unfold hof_update_one, hof_len.
  destruct ((Z.of_nat (length (items h)) =? 0) && negb (maxsize h =? 0)).
  - intros H. injection H as <-. unfold hof_insert. simpl.
    rewrite insert_sorted_length. split; [|lia].
    intros m Hm. apply insert_sorted_In in Hm. tauto.
  - destruct (rev (items h)) as [|worst rest] eqn:Er; [discriminate|].
    apply rev_worst in Er.
    assert (Hlen : length (items h) = S (length (removelast (items h)))).
    { rewrite Er at 1. rewrite length_app. simpl. lia. }
    destruct (fitness_gt ind worst || _).
    + destruct (existsb (np_equal ind) (items h)).
      * intros H. injection H as <-. split; [auto|lia].
      * destruct (maxsize h <=? _); intros H; injection H as <-;
          unfold hof_insert, hof_remove_last; simpl;
          rewrite insert_sorted_length; (split; [|lia]);
          intros m Hm; apply insert_sorted_In in Hm;
          destruct Hm as [->|Hm]; auto.
        right. right. now apply In_removelast.
    + intros H. injection H as <-. split; [auto|lia].
Qed.

Lemma hof_update_from_members (first : Individual) (l : list Individual) :
  forall (h h' : HallOfFame),
  hof_update_from first h l = Ok h' ->
  (forall m, In m (items h') -> m = first \/ In m l \/ In m (items h)) /\
  hof_len h <= hof_len h' <= hof_len h + len l.
Proof.
  induction l as [|ind l IH]; intros h h'; simpl.
  - intros H. injection H as <-. split; [auto|unfold len; simpl; lia].
  - destruct (hof_update_one first h ind) as [h1|] eqn:E1; simpl; [|discriminate].
    intros H. destruct (hof_update_one_members _ _ _ E1) as [Hm1 Hl1].
    destruct (IH h1 h' H) as [Hm Hl]. split.
    + intros m Hin. destruct (Hm m Hin) as [->|[Hml|Hmh]]; auto.
      destruct (Hm1 m Hmh) as [->|[->|Hmh']]; auto.
    + unfold len in *. simpl length. lia.
Qed.

(** [update]: the members afterwards come from the candidates or were
    there before; the archive grows by at most the number of candidates and
    never shrinks. *)
Lemma hof_update_members (pop : list Individual) (h h' : HallOfFame) :
  hof_update h pop = Ok h' ->
  (forall m, In m (items h') -> In m pop \/ In m (items h)) /\
  hof_len h <= hof_len h' <= hof_len h + len pop.
Proof.
  unfold hof_update. destruct pop as [|first t].
  - intros H. injection H as <-. split; [auto|unfold len; simpl; lia].
  - intros H. apply hof_update_from_members in H. destruct H as [Hm Hl].
    split; [|exact Hl]. intros m Hin.
    destruct (Hm m Hin) as [->|[H|H]]; auto. left. now left.
Qed.

(* ------------------------------------------------------------------ *)
(** ** Stagnation, elites and sizes *)

Section Tracking.

Context {rng : Type}.
Variable toolbox : Toolbox rng.
Variable cxpb : Q.
Variable save_mutpb : Q.
Variable stuck : Z * option string.

Local Abbreviation body := (generation toolbox cxpb save_mutpb stuck).
Local Abbreviation branch := (dispatch toolbox stuck).
Local Abbreviation decayed := (decay save_mutpb).
Local Abbreviation reached := (reached toolbox cxpb save_mutpb stuck).

Lemma after_tracking (n : nat) :
  forall (gen : Z) (s0 s : State rng),
  after toolbox cxpb save_mutpb stuck n gen s0 = Some s ->
  (forall lm, last_min s0 = Some lm -> logbook_min (logbook s0) = Ok lm /\ lm <> 0) ->
  forall lm, last_min s = Some lm -> logbook_min (logbook s) = Ok lm /\ lm <> 0.
Proof.
  induction n as [|n IH]; intros gen s0 s; simpl.
  - intros H. now injection H as <-.
  - destruct (body gen s0) as [s1| |] eqn:E; try discriminate.
    intros Ha _. apply (IH (gen + 1) s1 s Ha).
    rewrite generation_unfold in E.
    assert (Hdone : vary_and_record toolbox cxpb gen (snd (branch (decayed s0)))
                      (fst (branch (decayed s0))) = Next s1 \/
                    vary_and_record toolbox cxpb gen (snd (branch (decayed s0)))
                      (fst (branch (decayed s0))) = Break s1) by (left; exact E).
    apply vary_and_record_done in Hdone.
    destruct Hdone as (nm & rl & _ & _ & _ & _ & Hmin & Hl & _ & Hbreak).
    intros lm Elm. rewrite Hl in Elm. injection Elm as <-.
    split; [exact Hmin|]. intros ->.
    destruct Hbreak as [_ Hb]. rewrite E in Hb. specialize (Hb eq_refl). discriminate.
Qed.

(** X8.  A generation counts as stagnant exactly when its own minimum does
    not beat the best minimum recorded so far.  Once [last_min] is set (so
    from generation 2 on), with [rec] the record the generation appends:
    [last_min] becomes the smaller of the old [last_min] and [rec]'s
    minimum, and [stuck_count] becomes its value after the branch plus one
    if [rec]'s minimum is not below the old [last_min], and 0 if it is. *)
Theorem stagnant_iff_not_better pop0 K r n s s' lm :
  reached pop0 K r n s -> last_min s = Some lm ->
  body (Z.of_nat n + 1) s = Next s' \/ body (Z.of_nat n + 1) s = Break s' ->
  let s1 := fst (branch (decayed s)) in
  exists rec,
    logbook s' = (logbook s ++ [rec])%list /\
    last_min s' = Some (Z.min lm (rec_min rec)) /\
    stuck_count s' = (if lm <=? rec_min rec then stuck_count s1 + 1 else 0).
Proof.
  intros (s0 & E0 & Ha) El Hdone s1.
  destruct (generation0_start _ _ _ _ _ E0) as (_ & _ & _ & _ & El0 & _).
  destruct (after_tracking n 1 s0 Ha) with (lm := lm) as [Hmin Hnz];
    [intros x Ex; congruence | exact El |].
  rewrite !generation_unfold in Hdone. fold s1 in Hdone.
  apply vary_and_record_done in Hdone.
  destruct Hdone as (nm & rec & Hlog & _ & _ & _ & Hmin' & Hl' & Hc & _).
  destruct (dispatch_fields toolbox stuck (decayed s)) as (_ & Sl & Sm & _).
  destruct (decay_fields save_mutpb s) as (_ & _ & _ & _ & Dl & Dm & _).
  fold s1 in Sl, Sm. rewrite Sl, Dl in Hlog. rewrite Sm, Dm, El in Hc.
  exists rec. split; [exact Hlog|].
  destruct (logbook_min_snoc (logbook s) rec) as (v & Hv & _ & _ & Hu & _).
  rewrite Hlog, Hv in Hmin'. injection Hmin' as ->.
  specialize (Hu lm Hmin). subst nm.
  split; [exact Hl'|]. rewrite Hc. unfold count_stuck, truthy.
  rewrite (proj2 (Z.eqb_neq lm 0) Hnz). simpl.
  destruct (lm <=? rec_min rec) eqn:Ele.
  - apply Z.leb_le in Ele. rewrite (proj2 (Z.eqb_eq _ _)); [reflexivity|lia].
  - apply Z.leb_gt in Ele. rewrite (proj2 (Z.eqb_neq _ _)); [reflexivity|lia].
Qed.

(** X9.  A kind that names neither shock event (the solver's
    ['chernobyl'], the default [None]) switches both off for good: in the
    state a call returns the countdown is 0 and the mutation rate is the
    configured one, and every record of the logbook has an empty (or, for
    generation 0, no) [shock_event] and a [radiation] of 0 (or none). *)
Theorem unnamed_kind_never_shocks pop0 hof0 r ngen s :
  kind_is (snd stuck) Comet_Strike = false ->
  kind_is (snd stuck) Radiation_Leak = false ->
  eaSimpleWithElitism toolbox cxpb save_mutpb stuck pop0 ngen hof0 r = Returned s ->
  radiation s = 0 /\ mutpb s = save_mutpb /\
  forall rec, In rec (logbook s) ->
    (rec_shock_event rec = None \/ rec_shock_event rec = Some EmptyString) /\
    (rec_radiation rec = None \/ rec_radiation rec = Some 0).
Proof.
  intros Hc Hl.
  set (quiet := fun s : State rng =>
         radiation s = 0 /\ mutpb s = save_mutpb /\
         forall rec, In rec (logbook s) ->
           (rec_shock_event rec = None \/ rec_shock_event rec = Some EmptyString) /\
           (rec_radiation rec = None \/ rec_radiation rec = Some 0)).
  assert (Hstep : forall gen s1 s2, quiet s1 ->
            body gen s1 = Next s2 \/ body gen s1 = Break s2 -> quiet s2).
  { intros gen s1 s2 (Hr & Hm & Hlog) Hdone.
    destruct (body_schedule toolbox cxpb save_mutpb stuck gen s1 Hdone) as (Em & Er & _).
    destruct (branch_schedule toolbox save_mutpb stuck s1) as (Br & Bm & _).
    cbv zeta in *. rewrite Hl, andb_false_r, Hr in Br, Bm. simpl in Br, Bm.
    rewrite !generation_unfold in Hdone.
    apply vary_and_record_done in Hdone.
    destruct Hdone as (nm & rl & Elog & _ & Eev & Erad & _).
    destruct (dispatch_fields toolbox stuck (decayed s1)) as (_ & Sl & _).
    destruct (decay_fields save_mutpb s1) as (_ & _ & _ & _ & Dl & _).
    rewrite Sl, Dl in Elog. change (Z.max (-1) 0) with 0 in Br.
    unfold quiet. split; [congruence|]. split; [congruence|].
    intros rec Hin. rewrite Elog in Hin. apply in_app_or in Hin.
    destruct Hin as [Hin|[<-|[]]]; [now apply Hlog|].
    rewrite Eev, Erad, Br. split; [right|right; reflexivity].
    destruct (dispatch_cases toolbox stuck (decayed s1))
      as [[_ E] | [(_ & Ec & _) | [(_ & _ & El & _) | (_ & _ & _ & E)]]];
      [now rewrite E | congruence | congruence | now rewrite E]. }
  assert (Hafter : forall n gen s1 s2, quiet s1 ->
            after toolbox cxpb save_mutpb stuck n gen s1 = Some s2 -> quiet s2).
  { induction n as [|n IH]; intros gen s1 s2 Hq; simpl.
    - intros H. now injection H as <-.
    - destruct (body gen s1) as [x| |] eqn:E; try discriminate.
      apply IH. apply (Hstep gen s1 x Hq). now left. }
  unfold eaSimpleWithElitism.
  destruct (generation0 toolbox save_mutpb pop0 hof0 r) as [raised|s0] eqn:E0.
  { unfold generation0 in E0. destruct hof0 as [hof|]; [|injection E0 as <-; discriminate].
    destruct (hof_update _ _) as [h1|]; [|injection E0 as <-; discriminate].
    destruct (stats_compile _) as [[m a]|]; [discriminate|].
    injection E0 as <-; discriminate. }
  assert (Hq0 : quiet s0).
  { unfold generation0 in E0. destruct hof0 as [hof|]; [|discriminate].
    destruct (hof_update _ _) as [h1|]; [|discriminate].
    destruct (stats_compile _) as [[m a]|]; [|discriminate].
    injection E0 as <-. repeat split; simpl; auto.
    - destruct H as [<-|[]]. now left.
    - destruct H as [<-|[]]. now left. }
  destruct (loop_cases toolbox cxpb save_mutpb stuck (Z.to_nat ngen) 1 s0)
    as [(s' & Ha & ->) | [(k & s1 & s' & _ & Ha & Hb & ->)
                         | (k & s1 & e & s' & _ & Ha & Hb & ->)]];
    intros H; try discriminate; injection H as <-.
  - exact (Hafter _ _ _ _ Hq0 Ha).
  - apply (Hstep (1 + Z.of_nat k) s1 s' (Hafter _ _ _ _ Hq0 Ha)). now right.
Qed.

End Tracking.

Section Elites.

Context {rng : Type}.
Variable toolbox : Toolbox rng.
Variable cxpb : Q.
Variable save_mutpb : Q.
Variable stuck : Z * option string.
Hypothesis laws : ToolboxLaws toolbox.

Local Abbreviation f := (evaluate toolbox).
Local Abbreviation body := (generation toolbox cxpb save_mutpb stuck).
Local Abbreviation branch := (dispatch toolbox stuck).
Local Abbreviation decayed := (decay save_mutpb).
Local Abbreviation reached := (reached toolbox cxpb save_mutpb stuck).

(** Every archived member is in the population the archive was last
    updated with. *)
Lemma reached_archive_incl pop0 K r n s :
  reached pop0 K r n s -> incl (items (halloffame s)) (population s).
Proof.
  intros (s0 & E0 & Ha).
  assert (H0 : incl (items (halloffame s0)) (population s0)).
  { destruct (generation0_start _ _ _ _ _ E0) as (_ & _ & _ & _ & _ & _ & _ & hof & Eh & Hupd).
    injection Eh as <-. apply hof_update_members in Hupd. destruct Hupd as [Hm _].
    intros m Hin. destruct (Hm m Hin) as [H|[]]. exact H. }
  clear E0. revert Ha H0. generalize 1 as gen. revert s0.
  induction n as [|n IH]; intros s0 gen; simpl.
  - intros H. now injection H as <-.
  - destruct (body gen s0) as [s1| |] eqn:E; try discriminate.
    intros Ha _. apply (IH s1 (gen + 1) Ha).
    rewrite generation_unfold in E.
    assert (Hdone : vary_and_record toolbox cxpb gen (snd (branch (decayed s0)))
                      (fst (branch (decayed s0))) = Next s1 \/
                    vary_and_record toolbox cxpb gen (snd (branch (decayed s0)))
                      (fst (branch (decayed s0))) = Break s1) by (left; exact E).
    apply vary_and_record_fields in Hdone.
    destruct Hdone as (pool & _ & Hpop & _ & Hupd & _).
    apply hof_update_members in Hupd. destruct Hupd as [Hm _].
    intros m Hin. destruct (Hm m Hin) as [H|H]; [exact H|].
    rewrite Hpop. apply in_or_app. now right.
Qed.

(** The archive is drawn from the population it was last updated with,
    also in a generation that ends in the early stop. *)
Lemma body_archive_incl (gen : Z) (s t : State rng) :
  body gen s = Next t \/ body gen s = Break t ->
  incl (items (halloffame t)) (population t).
Proof.
  intros Hdone. rewrite !generation_unfold in Hdone.
  apply vary_and_record_fields in Hdone.
  destruct Hdone as (pool & _ & Hpop & _ & Hupd & _).
  apply hof_update_members in Hupd. destruct Hupd as [Hm _].
  intros m Hin. destruct (Hm m Hin) as [H|H]; [exact H|].
  rewrite Hpop. apply in_or_app. now right.
Qed.

(** What the invariant says about the head of the archive. *)
Lemma inv_best (t : State rng) :
  Inv toolbox t -> incl (items (halloffame t)) (population t) ->
  exists best rest log rec,
    items (halloffame t) = best :: rest /\ In best (population t) /\
    (forall i, In i (population t) -> cost best <= cost i) /\
    logbook t = (log ++ [rec])%list /\ rec_min rec = cost best /\
    fitness best = Some (rec_min rec).
Proof.
  intros HI Hincl.
  destruct (inv_hof HI) as [HF HS]. pose proof (inv_hof_nonempty HI) as Hne.
  destruct (inv_record HI) as (log & rec & Elog & (i0 & Hi0 & Hc0) & Hleast).
  destruct (items (halloffame t)) as [|best rest] eqn:Ei; [contradiction|].
  assert (Hbest : In best (population t)) by (apply Hincl; now left).
  assert (Hall : forall i, In i (population t) -> cost best <= cost i).
  { intros i Hi. destruct (inv_covers HI i Hi) as (b & Hb & Hle).
    rewrite Ei in Hb. pose proof (sorted_head_least HS Hb). lia. }
  assert (Heq : rec_min rec = cost best).
  { pose proof (Hleast best Hbest). pose proof (Hall i0 Hi0). lia. }
  exists best, rest, log, rec. repeat split; auto.
  inversion HF as [|? ? Hcons _]; subst. red in Hcons.
  rewrite Heq. unfold cost. now rewrite Hcons.
Qed.

(** X10.  For a call given an empty archive and a population whose valid
    fitnesses are those [evaluate] gives for the genes: at the end of
    generation 0 and of every later generation, the one that leaves the
    loop by the early stop included ([t] is the state [s] between two
    generations, or the state in which generation [n + 1] breaks), the
    first member of the archive is one of the individuals of the
    population, no individual of the population has a lower fitness, and
    its fitness is the minimum the logbook records for that generation. *)
Theorem best_is_in_population pop0 K r n s t :
  Forall (sound f) pop0 -> reached pop0 K r n s ->
  t = s \/ body (Z.of_nat n + 1) s = Break t ->
  exists best rest log rec,
    items (halloffame t) = best :: rest /\ In best (population t) /\
    (forall i, In i (population t) -> cost best <= cost i) /\
    logbook t = (log ++ [rec])%list /\ rec_min rec = cost best /\
    fitness best = Some (rec_min rec).
Proof.
  intros Hsound Hreach Ht.
  destruct (reached_inv laws Hsound Hreach) as (HI & HC & _).
  destruct Ht as [-> | Hb].
  - apply (inv_best HI). apply (reached_archive_incl Hreach).
  - assert (Hincl : incl (items (halloffame t)) (population t)).
    { apply (body_archive_incl (Z.of_nat n + 1) s). now right. }
    apply inv_best; [|exact Hincl].
    destruct (body_cases cxpb save_mutpb stuck laws (Z.of_nat n + 1) HI HC)
      as [(x & E & _) | [(x & rl & E & HI' & _) | (x & E & _)]];
      rewrite E in Hb; try discriminate.
    injection Hb as Hb. now subst x.
Qed.

(** X11.  When the configured kind is not ['Comet Strike'], no generation
    ends with fewer individuals than it began with, nor with a shorter
    archive: the population length can change only by growing. *)
Theorem population_never_shrinks pop0 K r n s s' :
  kind_is (snd stuck) Comet_Strike = false ->
  Forall (sound f) pop0 -> reached pop0 K r n s ->
  body (Z.of_nat n + 1) s = Next s' \/ body (Z.of_nat n + 1) s = Break s' ->
  len (population s) <= len (population s') /\
  hof_len (halloffame s) <= hof_len (halloffame s').
Proof.
  intros Hkind Hsound.
  (* one generation, given that the elite slots fit *)
  assert (Hstep : forall gen x x', Inv toolbox x -> Ctl x ->
            0 <= hof_size x <= hof_len (halloffame x) ->
            body gen x = Next x' \/ body gen x = Break x' ->
            len (population x) <= len (population x') /\
            hof_len (halloffame x) <= hof_len (halloffame x') /\
            hof_size x' = hof_size x).
  { intros gen x x' HI HC Hsz Hdone.
    rewrite !generation_unfold in Hdone.
    apply vary_and_record_fields in Hdone.
    destruct Hdone as (pool & Epool & Hpop & _ & Hupd & Hhs & _).
    apply hof_update_members in Hupd. destruct Hupd as [_ Hgrow].
    destruct (decay_fields save_mutpb x) as (Dp & Do & Dh & Dz & _ & _ & Dr & _).
    destruct (dispatch_fields toolbox stuck (decayed x)) as (_ & _ & _ & Sz & _).
    assert (Hpne : population x <> []).
    { destruct (inv_record HI) as (_ & _ & _ & (i & Hi & _) & _).
      intros E. rewrite E in Hi. destruct Hi. }
    assert (Hlen : len (population x') =
                   len pool + hof_len (halloffame (fst (branch (decayed x))))).
    { rewrite Hpop. unfold len, hof_len.
      rewrite length_app, evaluate_invalid_length, (varAnd_length laws). lia. }
    assert (Hcases : halloffame (fst (branch (decayed x))) = halloffame x /\
                     len (population x) - hof_size x <= len pool).
    { destruct (dispatch_cases toolbox stuck (decayed x))
        as [[_ E] | [(_ & Ec & _) | [(Hlt & Ec & _) | (Hlt & Ec & _)]]];
        [| congruence | |].
      - rewrite E in Epool |- *. unfold normal_selection in *.
        rewrite Dp, Dz, Dr, Dh in *.
        pose proof (select_length laws (random x) (len (population x) - hof_size x) Hpne) as Hl.
        destruct (select toolbox (random x) (population x)
                    (len (population x) - hof_size x)) as [chosen r1].
        simpl in *. injection Epool as <-. split; [reflexivity|].
        unfold len at 2. rewrite Hl. lia.
      - destruct (dispatch_stale toolbox stuck (decayed x) Hlt Ec) as (So & Sh & _).
        rewrite So, Do in Epool. rewrite Sh, Dh. split; [reflexivity|].
        destruct (last_min x) as [lm|] eqn:El.
        + destruct (ctl_later HC El) as (_ & _ & Eo). rewrite Eo in Epool.
          injection Epool as <-. lia.
        + destruct (ctl_first HC El) as (_ & Eo & _). congruence.
      - destruct (dispatch_stale toolbox stuck (decayed x) Hlt Ec) as (So & Sh & _).
        rewrite So, Do in Epool. rewrite Sh, Dh. split; [reflexivity|].
        destruct (last_min x) as [lm|] eqn:El.
        + destruct (ctl_later HC El) as (_ & _ & Eo). rewrite Eo in Epool.
          injection Epool as <-. lia.
        + destruct (ctl_first HC El) as (_ & Eo & _). congruence. }
    destruct Hcases as [Hsame Hpool]. rewrite Hsame in *.
    rewrite Sz, Dz in Hhs. split; [lia|]. split; [lia|exact Hhs]. }
  (* the elite slots fit at the end of every generation *)
  assert (Hafter : forall k gen x y, Inv toolbox x -> Ctl x ->
            0 <= hof_size x <= hof_len (halloffame x) ->
            after toolbox cxpb save_mutpb stuck k gen x = Some y ->
            Inv toolbox y /\ Ctl y /\ 0 <= hof_size y <= hof_len (halloffame y)).
  { induction k as [|k IH]; intros gen x y HI HC Hsz; simpl.
    - intros H. injection H as <-. auto.
    - destruct (body gen x) as [x1| |] eqn:E; try discriminate.
      destruct (body_Next cxpb save_mutpb stuck laws gen HI HC E) as (HI1 & HC1 & _).
      destruct (Hstep gen x x1 HI HC Hsz (or_introl E)) as (_ & Hh & Hz).
      apply IH; auto. lia. }
  intros (s0 & E0 & Ha) Hdone.
  destruct (generation0_spec toolbox save_mutpb K r Hsound E0)
    as (HI0 & HC0 & _ & _ & _ & _ & Hz0 & _).
  destruct (Hafter n 1 s0 s HI0 HC0) as (HI & HC & Hsz);
    [rewrite Hz0; unfold hof_len; lia|exact Ha|].
  destruct (Hstep _ s s' HI HC Hsz Hdone) as (Hp & Hh & _). auto.
Qed.

End Elites.

(* ------------------------------------------------------------------ *)
(** ** The solver, start to finish *)

Section SolverRuns.

Context {rng Solution : Type}.
Variable toolbox : Toolbox rng.
Variable get_solution : Individual -> Solution.

(** X12.  [get_solution] and [get_stats] read what [ga_solve] stored: on a
    solver as constructed both attributes are still missing; after any
    [ga_solve] that completes, [get_solution] gives the decoded first
    member of the archive together with the [solved] flag, and [get_stats]
    gives the logbook the engine returned. *)
Theorem getters_after_solve (self self' : GASolver Solution) (r : rng)
  (calls : list (final_call Solution)) :
  ga_solve toolbox get_solution self r = Ok (self', calls) ->
  (forall n g k cx mu cb,
     GASolver_get_solution (new_solver (Solution := Solution) n g k cx mu cb) = None /\
     GASolver_get_stats (new_solver (Solution := Solution) n g k cx mu cb) = None) /\
  exists s best rest,
    run_engine toolbox self r = Returned s /\
    items (halloffame s) = best :: rest /\
    GASolver_get_solution self' = Some (get_solution best, solved self') /\
    GASolver_get_stats self' = Some (logbook s).
Proof.
  unfold ga_solve. intros H. split; [intros; split; reflexivity|].
  destruct (run_engine toolbox self r) as [s|e p h l]; [|discriminate].
  exists s. unfold conclude in H.
  destruct (items (halloffame s)) as [|best rest]; [discriminate|].
  exists best, rest. split; [reflexivity|]. split; [reflexivity|].
  destruct (fitness best) as [v|]; [|discriminate].
  destruct (v =? 0); injection H as <- _; split; reflexivity.
Qed.

Hypothesis laws : ToolboxLaws toolbox.

(** X13.  A solver configured with [population_size <= 0] creates no
    individual, and [ga_solve] raises the engine's [ValueError]: nothing is
    stored and no callback is called. *)
Theorem solver_without_population_raises (self : GASolver Solution) (r : rng) :
  population_size self <= 0 ->
  ga_solve toolbox get_solution self r = Raise ValueError.
Proof.
  intros Hn. unfold ga_solve, run_engine.
  pose proof (creator_length laws r (population_size self)) as Hlen.
  destruct (populationCreator toolbox r (population_size self)) as [pop r'].
  simpl in Hlen. replace (Z.to_nat (population_size self)) with O in Hlen by lia.
  destruct pop; [reflexivity|discriminate].
Qed.



End SolverRuns.

(* ------------------------------------------------------------------ *)
(** ** The creation operators *)

Section CreationFacts.

Context {rng : Type}.
Variable randint : rng -> Z -> Z -> result (Z * rng).
Variable possibility_range : list Z.

(** What [random.randint] guarantees on a range that is not empty. *)
Hypothesis randint_in_range : forall r a b, a <= b ->
  exists v r', randint r a b = Ok (v, r') /\ a <= v <= b.

Lemma random_genes_within (ranges : list Z) :
  Forall (fun u => 0 <= u) ranges ->
  forall r, exists gs r',
    Operators.random_genes randint r ranges = Ok (gs, r') /\ within ranges gs.
Proof.
  induction 1 as [|u t Hu _ IH]; intros r; simpl.
  - exists [], r. split; [reflexivity|constructor].
  - destruct (randint_in_range r Hu) as (v & r1 & -> & Hv). simpl.
    destruct (IH r1) as (gs & r2 & -> & Hgs). simpl.
    exists (v :: gs), r2. split; [reflexivity|]. now constructor.
Qed.

(** X16.  When no upper limit is negative, the population creator the
    solver registers returns exactly [max(n, 0)] individuals; each has one
    gene per position, gene [i] between 0 and [possibility_range[i]], and a
    fitness that is not yet valid. *)
Theorem created_population_within (r : rng) (n : Z) :
  Forall (fun u => 0 <= u) possibility_range ->
  exists pop r',
    Operators.populationCreator randint possibility_range r n = Ok (pop, r') /\
    len pop = Z.max n 0 /\
    Forall (fun i => fitness i = None /\ within possibility_range (genes i)) pop.
Proof.
  intros Hrange. unfold Operators.populationCreator.
  replace (Z.max n 0) with (Z.of_nat (Z.to_nat n)) by lia.
  generalize (Z.to_nat n) as k. intros k. revert r.
  induction k as [|k IH]; intros r; simpl Operators.initRepeat.
  - exists [], r. split; [reflexivity|]. split; [reflexivity|constructor].
  - unfold Operators.individualCreator, Operators.random_sudoku.
    destruct (random_genes_within Hrange r) as (gs & r1 & -> & Hgs). simpl.
    destruct (IH r1) as (pop & r2 & -> & Hlen & Hall). simpl.
    exists (mkInd gs None :: pop), r2. split; [reflexivity|]. split.
    + unfold len in *. simpl length. lia.
    + constructor; [split; [reflexivity|exact Hgs]|exact Hall].
Qed.

End CreationFacts.

Lemma cyclic_randint_in_range (r a b : Z) :
  a <= b -> exists v r', cyclic_randint r a b = Ok (v, r') /\ a <= v <= b.
Proof.
  intros Hab. unfold cyclic_randint. rewrite (proj2 (Z.leb_le a b) Hab).
  eexists _, _. split; [reflexivity|].
  pose proof (Z.mod_pos_bound r (b - a + 1)). lia.
Qed.

Lemma created_population_within_witness :
  exists pop r',
    Operators.populationCreator cyclic_randint [3; 0; 8] 5 4 = Ok (pop, r') /\
    len pop = Z.max 4 0 /\
    Forall (fun i => fitness i = None /\ within [3; 0; 8] (genes i)) pop.
Proof.
  apply (@created_population_within Z cyclic_randint [3; 0; 8]
           cyclic_randint_in_range 5 4).
  repeat constructor; discriminate.
Defined.

(* ------------------------------------------------------------------ *)
(** ** Instances *)

Lemma leak_reached (n : nat) :
  (n <= 4)%nat ->
  reached Scenario.flat (9 # 10) (1 # 5) (1, Some Radiation_Leak)
          Runs.four 2 4 n (Runs.leak_at n).
Proof.
  intros Hn. do 5 (destruct n as [|n]; [eexists; split; vm_compute; reflexivity|]).
  lia.
Qed.


Lemma returned_evaluated_witness :
  Forall (fun i => fitness i = Some 1) (population (Runs.leak_at 3)) /\
  Forall (fun i => fitness i = Some 1) (items (halloffame (Runs.leak_at 3))).
Proof.
  apply (@returned_evaluated Z Scenario.flat (9 # 10) (1 # 5)
           (1, Some Radiation_Leak) ScenarioFacts.flat_laws Runs.four 2 4 3
           (Runs.leak_at 3)).
  - apply ScenarioFacts.create_sound.
  - vm_compute. reflexivity.
Defined.


Lemma shocks_are_spaced_witness :
  dispatch Scenario.flat (1, Some Radiation_Leak) (decay (1 # 5) (Runs.leak_at 4)) =
    (normal_selection Scenario.flat (decay (1 # 5) (Runs.leak_at 4)), EmptyString).
Proof.
  apply (@shocks_are_spaced Z Scenario.flat (9 # 10) (1 # 5) (1, Some Radiation_Leak)
           Runs.four 2 4 3 (Runs.leak_at 3) 0 (Runs.leak_at 4)).
  - discriminate.
  - apply leak_reached. repeat constructor.
  - vm_compute. reflexivity.
  - vm_compute. reflexivity.
  - reflexivity.
Defined.

Lemma stagnant_iff_not_better_witness :
  exists rec,
    logbook (Runs.leak_at 3) = (logbook (Runs.leak_at 2) ++ [rec])%list /\
    last_min (Runs.leak_at 3) = Some (Z.min 1 (rec_min rec)) /\
    stuck_count (Runs.leak_at 3) =
      (if 1 <=? rec_min rec
       then stuck_count (fst (dispatch Scenario.flat (1, Some Radiation_Leak)
                                       (decay (1 # 5) (Runs.leak_at 2)))) + 1
       else 0).
Proof.
  apply (@stagnant_iff_not_better Z Scenario.flat (9 # 10) (1 # 5)
           (1, Some Radiation_Leak) Runs.four 2 4 2 (Runs.leak_at 2) (Runs.leak_at 3) 1).
  - apply leak_reached. repeat constructor.
  - vm_compute. reflexivity.
  - left. vm_compute. reflexivity.
Defined.

Lemma best_is_in_population_witness :
  exists s0 t best rest log rec,
    generation0 Scenario.five (1 # 5) Runs.ten (Some (mkHof 2 [])) 10 = inr s0 /\
    generation Scenario.five (9 # 10) (1 # 5) (50, Some chernobyl) 1 s0 = Break t /\
    items (halloffame t) = best :: rest /\
    In best (population t) /\
    (forall i, In i (population t) -> cost best <= cost i) /\
    logbook t = (log ++ [rec])%list /\ rec_min rec = cost best /\
    fitness best = Some (rec_min rec).
Proof.
  assert (H0 : exists s0 t,
            generation0 Scenario.five (1 # 5) Runs.ten (Some (mkHof 2 [])) 10 = inr s0 /\
            generation Scenario.five (9 # 10) (1 # 5) (50, Some chernobyl) 1 s0 = Break t).
  { eexists _, _. split; vm_compute; reflexivity. }
  destruct H0 as (s0 & t & E0 & Eb).
  destruct (@best_is_in_population Z Scenario.five (9 # 10) (1 # 5)
              (50, Some chernobyl) ScenarioFacts.five_laws Runs.ten 2 10 0 s0 t)
    as (best & rest & log & rec & H).
  - apply ScenarioFacts.create_sound.
  - exists s0. split; [exact E0|reflexivity].
  - right. exact Eb.
  - exists s0, t, best, rest, log, rec. split; [exact E0|]. split; [exact Eb|exact H].
Defined.

Lemma population_never_shrinks_witness :
  len (population (Runs.leak_at 3)) <= len (population (Runs.leak_at 4)) /\
  hof_len (halloffame (Runs.leak_at 3)) <= hof_len (halloffame (Runs.leak_at 4)).
Proof.
  apply (@population_never_shrinks Z Scenario.flat (9 # 10) (1 # 5)
           (1, Some Radiation_Leak) ScenarioFacts.flat_laws Runs.four 2 4 3).
  - reflexivity.
  - apply ScenarioFacts.create_sound.
  - apply leak_reached. repeat constructor.
  - left. vm_compute. reflexivity.
Defined.

Lemma unnamed_kind_never_shocks_witness :
  exists s,
    run_engine Scenario.flat
               (new_solver (Solution := list Z) 4 60 2 (9 # 10) (1 # 5) false) 0 =
      Returned s /\
    radiation s = 0 /\ mutpb s = 1 # 5 /\
    forall rec, In rec (logbook s) ->
      (rec_shock_event rec = None \/ rec_shock_event rec = Some EmptyString) /\
      (rec_radiation rec = None \/ rec_radiation rec = Some 0).
Proof.
  eexists. split; [vm_compute; reflexivity|].
  eapply (@unnamed_kind_never_shocks Z Scenario.flat (9 # 10) (1 # 5)
            (50, Some chernobyl) Runs.four (Some (mkHof 2 [])) 4 60).
  - reflexivity.
  - reflexivity.
  - vm_compute. reflexivity.
Defined.

Lemma getters_after_solve_witness :
  exists self' s best rest,
    run_engine Scenario.five
               (new_solver (Solution := list Z) 10 8 2 (9 # 10) (1 # 5) true) 0 =
      Returned s /\
    items (halloffame s) = best :: rest /\
    GASolver_get_solution self' = Some (genes best, solved self') /\
    GASolver_get_stats self' = Some (logbook s).
Proof.
  assert (Hrun : exists self' calls,
            ga_solve Scenario.five genes
                     (new_solver (Solution := list Z) 10 8 2 (9 # 10) (1 # 5) true) 0 =
              Ok (self', calls)).
  { eexists _, _. vm_compute. reflexivity. }
  destruct Hrun as (self' & calls & Hrun).
  destruct (getters_after_solve _ _ _ _ Hrun) as (_ & s & best & rest & H).
  exists self', s, best, rest. exact H.
Defined.

Lemma solver_without_population_raises_witness :
  ga_solve Scenario.flat genes (new_solver 0 60 2 (9 # 10) (1 # 5) true) 0 =
    Raise ValueError.
Proof.
  apply (solver_without_population_raises genes ScenarioFacts.flat_laws).
  discriminate.
Defined.


